(** * ArborX::Experimental::MinimumSpanningTree

    A shallow embedding of the Boruvka driver of
    [src/cluster/ArborX_MinimumSpanningTree.hpp] (the constructor and
    [doBoruvka]) together with the helpers it calls, followed by the
    priority queue of [src/misc/ArborX_PriorityQueue.hpp] and the traits of
    [src/kokkos_ext/ArborX_KokkosExtAccessibilityTraits.hpp].

    Conventions.
    - A [Kokkos::View<T*>] is a [list T]; a write at an index outside the view
      leaves the list as it is and a read there yields a default value.  The
      one view accessed outside its extent is [edges_mapping], of [n - 1]
      entries, at the component id [n - 1]; what is proved of it speaks of
      the entries inside.
    - Point and component indices ([int] in the source) are [nat]; quantities
      the source subtracts ([num_components], [k]) are [Z].
    - Weights are [float] in the source.  Only their order and equality matter
      to the driver, so a finite weight is a [Z] and [+infinity] is [None].
    - [DirectedEdge]'s default value (the "uninitialized" edge, endpoints -1
      and infinite weight) is [None] in an [option DirectedEdge].
    - The bounding volume hierarchy is a black box: of the [2n-1] labels only
      the [n] leaf labels are kept; the labels of internal nodes, rebuilt by
      [reduceLabels] and read by the tree traversal alone, the tree parents
      and the shared radii appear in the call log only, and so does
      [retrieveEdges], of which the spec says nothing.
    - The call log lists the helper calls in the order of the source; it
      stands for the control flow of the constructor and of [doBoruvka].
    - The helpers of a round are not among the sources.  Two of their steps
      are worded by the spec in one way and described by their purpose in
      another: the comparison of the traversal and the label update.  The
      driver is given with the reading that serves the purpose ([better],
      [next_component]) and, with both steps as parameters
      ([boruvka_round_with], [construct_with]), with the steps as they are
      worded ([better_as_worded], [min_rule]). *)

From Stdlib Require Import ZArith List Arith Lia Bool Permutation Sorted.
Import ListNotations.

Set Implicit Arguments.

(** ** Data model *)

Inductive BoruvkaMode := MST | HDBSCAN.

Record WeightedEdge := mkWeightedEdge
  { source : nat; target : nat; weight : Z }.

Record DirectedEdge := mkDirectedEdge
  { dsource : nat; dtarget : nat; dweight : Z }.

(** The conversion used by [_edges(back) = edge]. *)
Definition toWeightedEdge (e : DirectedEdge) : WeightedEdge :=
  mkWeightedEdge (dsource e) (dtarget e) (dweight e).

(** The five views the constructed object owns. *)
Record MinimumSpanningTree := mkMinimumSpanningTree
  { edges : list WeightedEdge;
    dendrogram_parents : list Z;
    dendrogram_parent_heights : list Z;
    _chain_offsets : list Z;
    _chain_levels : list Z }.

Inductive MetricKind := Euclidean | MutualReachability.

(** One entry per helper call or profiling region of the source, in call order. *)
Inductive Event :=
| EvConstructBVH
| EvComputeCoreDistances (k : Z)
| EvBoruvka (m : MetricKind)
| EvFindParents
| EvIteration (it : nat) (num_components : Z)
| EvReduceLabels
| EvResetSharedRadii
| EvFindComponentNearestNeighbors
| EvRetrieveEdges
| EvUpdateLowerBounds
| EvUnidirectionalEdges
| EvBidirectionalEdges
| EvUpdateSidedParents (it edges_start edges_end : nat)
| EvAssignVertexParents (it : nat)
| EvUpdateLabels
| EvRootChain (edges_start edges_end : nat)
| EvComputeParentsAndReorderEdges
| EvAssignParentHeights
| EvFinalizeEdges.

(** ** Views *)

(** [v(i) = x]. *)
Fixpoint view_set {A} (i : nat) (x : A) (v : list A) : list A :=
  match v, i with
  | [], _ => []
  | _ :: t, 0 => x :: t
  | h :: t, S j => h :: view_set j x t
  end.

(** [deep_copy(subview(v, make_pair(lo, hi)), x)]. *)
Definition fill_range {A} (lo hi : nat) (x : A) (v : list A) : list A :=
  firstn lo v ++ repeat x (length (firstn hi v) - lo) ++ skipn (Nat.max lo hi) v.

(** ** The order on edges *)

(** Modelled from the spec: the comparison of edges
    (detail/ArborX_WeightedEdge.hpp is not among the sources): "Ordering is
    lexicographic on (weight, min(source,target), max(source,target))". *)
Definition key_ltb (w1 : Z) (a1 b1 : nat) (w2 : Z) (a2 b2 : nat) : bool :=
  (w1 <? w2)%Z ||
  ((w1 =? w2)%Z &&
   ((Nat.min a1 b1 <? Nat.min a2 b2) ||
    ((Nat.min a1 b1 =? Nat.min a2 b2) &&
     (Nat.max a1 b1 <? Nat.max a2 b2)))).

Definition dedge_ltb (e1 e2 : DirectedEdge) : bool :=
  key_ltb (dweight e1) (dsource e1) (dtarget e1)
          (dweight e2) (dsource e2) (dtarget e2).

Definition wedge_ltb (e1 e2 : WeightedEdge) : bool :=
  key_ltb (weight e1) (source e1) (target e1)
          (weight e2) (source e2) (target e2).

(** Insertion sort, used for the canonical order of edges and for the
    nearest-neighbour distances. *)
Section Sort.
Variable A : Type.
Variable ltb : A -> A -> bool.

Fixpoint insert_sorted (x : A) (l : list A) : list A :=
  match l with
  | [] => [x]
  | y :: t => if ltb y x then y :: insert_sorted x t else x :: y :: t
  end.

Definition sort_by (l : list A) : list A :=
  fold_right insert_sorted [] l.
End Sort.

(** "canonical sort by (weight, min-endpoint, max-endpoint)". *)
Definition canonical_sort (es : list WeightedEdge) : list WeightedEdge :=
sort_by wedge_ltb es.

(** ** Metrics *)

Section Metrics.
Variable n : nat.
(** The Euclidean distance between points [i] and [j]. *)
Variable euclid : nat -> nat -> Z.

(** Modelled from the spec: the core distances
    (detail/ArborX_MutualReachabilityDistance.hpp is not among the sources):
    "core[p] = distance from p to its k-th nearest neighbor ... via a k-NN
    query against the freshly built BVH".  The tree holds [p] itself, and
    the callback the source passes is [MaxDistance]: the largest distance
    among the [k] nearest entries. *)
Definition core_distance (k : nat) (p : nat) : Z :=
  fold_left Z.max
    (firstn k (sort_by Z.ltb (map (euclid p) (seq 0 n)))) 0%Z.

Definition compute_core_distances (k : nat) : list Z :=
  map (core_distance k) (seq 0 n).

(** Modelled from the spec: "Mutual reachability:
    max(core[i], core[j], euclidean(i,j))". *)
Definition mutual_reachability (core : list Z) (i j : nat) : Z :=
  Z.max (nth i core 0%Z) (Z.max (nth j core 0%Z) (euclid i j)).
End Metrics.

(** ** The helpers of one Boruvka round *)

Section Helpers.
Variable n : nat.
Variable metric : nat -> nat -> Z.

(** [labels(i)] for a leaf [i]. *)
Definition label_of (labels : list nat) (i : nat) : nat := nth i labels i.

(** The atomic combine of step 5 of section 4.5: "keep the edge with smaller
    weight; break ties by lexicographic endpoint order".  [traverse] below
    uses it for the comparison of step 4 as well; the comparison as step 4
    words it, [d < d_best], is [better_as_worded].  Weights are integers:
    the infinite weight of an entry without candidate is [None], and there
    is no NaN. *)
Definition better (e : DirectedEdge) (cur : option DirectedEdge)
  : option DirectedEdge :=
  match cur with
  | None => Some e
  | Some c => if dedge_ltb e c then Some e else cur
  end.

(** The leaves the traversal from leaf [i] may stop at: "each visited leaf
    j != i with label(j) != c". *)
Definition leaf_candidates (labels : list nat) (i : nat) : list DirectedEdge :=
  map (fun j => mkDirectedEdge i j (metric i j))
      (filter (fun j => negb (label_of labels j =? label_of labels i))
              (seq 0 n)).

Definition traverse (labels : list nat) (i : nat) (cur : option DirectedEdge)
  : option DirectedEdge :=
  fold_left (fun acc e => better e acc) (leaf_candidates labels i) cur.

(** "If lower_bounds[i] > d_best, skip". *)
Definition exceeds (lb : Z) (d_best : option Z) : bool :=
  match d_best with
  | None => false
  | Some d => (d <? lb)%Z
  end.

(** Modelled from the spec: FindComponentNearestNeighbors
    (detail/ArborX_BoruvkaHelpers.hpp is not among the sources), the task of
    leaf [i] of section 4.5: read [weights[c]] and, if present,
    [lower_bounds[i]]; skip when the bound exceeds [d_best]; otherwise
    combine the best candidate of the traversal into
    [component_out_edges[c]] by the order on edges and keep [weights[c]]
    equal to its weight.  A candidate replaces the best one when it is
    smaller in the order on edges, ties on the weight included, as the
    section's goal ("the DirectedEdge of minimum weight with exactly one
    endpoint in c") and its "total order ... (weight, min(endpoint),
    max(endpoint))" ask; with step 4 as it is worded, [d < d_best], the
    task is [fcnn_leaf_with better_as_worded].  The cache is present when
    the view has an entry for the leaf (the driver passes a view of length 0
    otherwise). *)
Definition fcnn_leaf (labels : list nat) (lower_bounds : list Z)
    (st : list (option Z) * list (option DirectedEdge)) (i : nat)
  : list (option Z) * list (option DirectedEdge) :=
  let c := label_of labels i in
  if (i <? length lower_bounds) &&
     exceeds (nth i lower_bounds 0%Z) (nth c (fst st) None)
  then st
  else
    let best := traverse labels i (nth c (snd st) None) in
    (view_set c (option_map dweight best) (fst st),
     view_set c best (snd st)).

(** "one task per leaf i"; the tasks are run in the order of the leaves. *)
Definition FindComponentNearestNeighbors (labels : list nat)
    (weights : list (option Z))
    (component_out_edges : list (option DirectedEdge))
    (lower_bounds : list Z)
  : list (option Z) * list (option DirectedEdge) :=
  fold_left (fcnn_leaf labels lower_bounds) (seq 0 n)
            (weights, component_out_edges).

(** Modelled from the spec: updateLowerBounds (not among the sources), step
    6 of section 4.5: "record lower_bounds[i] := d_best", the weight of the
    edge found for the component of [i]. *)
Definition updateLowerBounds (labels : list nat)
    (component_out_edges : list (option DirectedEdge))
    (lower_bounds : list Z) : list Z :=
  map (fun i =>
         match nth (label_of labels i) component_out_edges None with
         | Some e => dweight e
         | None => nth i lower_bounds 0%Z
         end)
      (seq 0 (length lower_bounds)).

(** "c's winner (u,w) and c''s winner (u',w') form a mutual pair
    (w'==u /\ u'==w)". *)
Definition mutual_pair (e : DirectedEdge) (e' : option DirectedEdge) : bool :=
  match e' with
  | None => false
  | Some e' => (dtarget e' =? dsource e) && (dsource e' =? dtarget e)
  end.

(** Modelled from the spec: UpdateComponentsAndEdges, unidirectional tag
    (not among the sources): "emit e only when c < c' or when c's winner and
    c''s winner do not form a mutual pair". *)
Definition emits (labels : list nat)
    (out : list (option DirectedEdge)) (c : nat) : bool :=
  match nth c out None with
  | None => false
  | Some e =>
      let c' := label_of labels (dtarget e) in
      (c <? c') || negb (mutual_pair e (nth c' out None))
  end.

Record EdgeStore := mkEdgeStore
  { es_edges : list WeightedEdge;
    es_mapping : list nat;
    es_count : nat }.

(** The body of the unidirectional pass at index [i]: the slot is taken from
    the atomic counter, "Record edges_mapping[c] = slot (HDBSCAN)".  The
    view [edges_mapping] has [n - 1] entries (line 179) and [c] ranges over
    the [n] component ids; a write outside a view is dropped here
    ([view_set]), and nothing is claimed of it. *)
Definition emit_one (mode : BoruvkaMode) (labels : list nat)
    (out : list (option DirectedEdge)) (s : EdgeStore) (i : nat) : EdgeStore :=
  if (label_of labels i =? i) && emits labels out i then
    match nth i out None with
    | Some e =>
        let back := es_count s in
        mkEdgeStore (view_set back (toWeightedEdge e) (es_edges s))
                    (match mode with
                     | HDBSCAN => view_set i back (es_mapping s)
                     | MST => es_mapping s
                     end)
                    (S back)
    | None => s
    end
  else s.

(** The pass over [0, n); [order] is the order in which the iterations
    reach the counter. *)
Definition update_unidirectional_edges (mode : BoruvkaMode)
    (order : list nat) (labels : list nat)
    (out : list (option DirectedEdge)) (s : EdgeStore) : EdgeStore :=
  fold_left (emit_one mode labels out) order s.

(** Modelled from the spec: UpdateComponentsAndEdges, bidirectional tag
    (not among the sources): "both halves of a merge are recorded": the
    component of a mutual pair that did not emit takes the slot of the edge
    its partner emitted.  For the component [n - 1] the write falls outside
    the [n - 1] entries of the view and is dropped. *)
Definition update_bidirectional_edges (labels : list nat)
    (out : list (option DirectedEdge)) (mapping : list nat) : list nat :=
  fold_left
    (fun m i =>
       if (label_of labels i =? i) && negb (emits labels out i) then
         match nth i out None with
         | Some e => view_set i (nth (label_of labels (dtarget e)) m 0) m
         | None => m
         end
       else m)
    (seq 0 n) mapping.

(** Modelled from the spec: UpdateComponentsAndEdges, labels tag (not among
    the sources).  Section 3 asks that after a round "every leaf's label
    equals the id of the component currently containing that leaf's point",
    a component being "a connected set of points under the MST edges found
    so far", and says that "merging assigns to the merged component the
    minimum of the two ids".  The two ids are those of a mutual pair, the
    one place where section 4.6 has to choose ("if both point to each
    other, the component with the smaller id ..."): both components of a
    mutual pair take the minimum of their ids, and any other component
    takes the component its winner leads to, whose edge it has just
    emitted.  The one-line form of section 4.6, [min(c, label(target))]
    for every component, is [min_rule] below; [min_rule_separates] shows
    that it leaves a component that has emitted its edge with its own
    label, against section 3.  The driver with the label rule as a
    parameter is [boruvka_round_with]. *)
Definition next_component (labels : list nat)
    (out : list (option DirectedEdge)) (c : nat) : nat :=
  match nth c out None with
  | None => c
  | Some e =>
      let c' := label_of labels (dtarget e) in
      if mutual_pair e (nth c' out None) then Nat.min c c' else c'
  end.

(** Modelled from the spec: the label update of section 4.6 as it is
    worded: "For every c: set labels[c] :=
    min(c, label(component_out_edges[c].target))". *)
Definition min_rule (labels : list nat)
    (out : list (option DirectedEdge)) (c : nat) : nat :=
  match nth c out None with
  | None => c
  | Some e => Nat.min c (label_of labels (dtarget e))
  end.

(** "For every c: set labels[c] := ..." *)
Definition hook_labels (labels : list nat)
    (out : list (option DirectedEdge)) : list nat :=
  map (fun i => if label_of labels i =? i
                then next_component labels out i
                else label_of labels i)
      (seq 0 (length labels)).

(** One sweep "labels[i] := labels[labels[i]]". *)
Definition sweep_labels (labels : list nat) : list nat :=
  map (fun i => label_of labels (label_of labels i)) (seq 0 (length labels)).

(** "Repeat a path-compression sweep until the mapping is idempotent". *)
Fixpoint compress_labels (fuel : nat) (labels : list nat) : list nat :=
  match fuel with
  | 0 => labels
  | S f =>
      let labels' := sweep_labels labels in
      if list_eq_dec Nat.eq_dec labels' labels then labels
      else compress_labels f labels'
  end.

Definition update_labels (labels : list nat)
    (out : list (option DirectedEdge)) : list nat :=
  compress_labels (length labels) (hook_labels labels out).

(** Modelled from the spec: assignVertexParents (not among the sources):
    "Set dendrogram_parents[N-1 + i] := edges_mapping[label(i)]".  For the
    leaf [n - 1] of round 1 the entry read lies outside the [n - 1] entries
    of [edges_mapping]; the read yields 0 here, and nothing is claimed of
    the parent of that leaf. *)
Definition assignVertexParents (labels : list nat) (mapping : list nat)
    (parents : list Z) : list Z :=
  fold_left
    (fun p i => view_set (n - 1 + i)
                         (Z.of_nat (nth (label_of labels i) mapping 0)) p)
    (seq 0 n) parents.

(** Modelled from the spec: finalizeEdges (not among the sources): "finalize
    edges (compact to final N-1 entries; stable sort if required)".  The
    compaction is modelled; the sort is not: the spec names neither its key
    nor when it is required, and says of the [edges] returned that their
    "order is unspecified; callers may sort", so the view keeps the order
    it has. *)
Definition finalizeEdges (es : list WeightedEdge) : list WeightedEdge :=
  firstn (n - 1) es.
End Helpers.

(** ** The driver: [MinimumSpanningTree::doBoruvka] *)

(** The views and host variables of [doBoruvka], the views of the object it
    fills, and the call log. *)
Record State := mkState
{ st_labels : list nat;
  st_component_out_edges : list (option DirectedEdge);
  st_weights : list (option Z);
  st_lower_bounds : list Z;
  st_num_edges : nat;
  st_edges : list WeightedEdge;
  st_edges_mapping : list nat;
  st_sided_parents : list Z;
  st_dendrogram_parents : list Z;
  st_dendrogram_parent_heights : list Z;
  st_chain_offsets : list Z;
  st_chain_levels : list Z;
  st_iterations : nat;
  st_num_components : Z;
  st_edges_start : nat;
  st_edges_end : nat;
  st_edge_offsets : list nat;
  st_log : list Event }.

(** What a view allocated [WithoutInitializing] holds before it is written. *)
Definition junk_edge : WeightedEdge := mkWeightedEdge 0 0 0.

Section Driver.
(** The number of points, [bvh.size()]. *)
Variable n : nat.
Variable metric : nat -> nat -> Z.
(** The template parameter [Mode]. *)
Variable mode : BoruvkaMode.
(** [use_lower_bounds]: whether the execution space is [Kokkos::Serial]. *)
Variable use_lower_bounds : bool.
(** For every iteration, the order in which the indices of the
    unidirectional pass reach the atomic counter [num_edges]. *)
Variable schedule : nat -> list nat.

(** The helpers of the dendrogram the spec leaves open
    (detail/ArborX_BoruvkaHelpers.hpp is not among the sources); each
    returns the views it may write. *)
Variable ROOT_CHAIN_VALUE : Z.
Variable updateSidedParents :
  list nat -> list WeightedEdge -> list nat -> list Z -> nat -> nat -> list Z.
Variable computeParentsAndReorderEdges :
  list WeightedEdge -> list nat -> list Z -> list Z ->
  list WeightedEdge * list Z * list Z * list Z.

(** Lines 110-191: the allocations before the loop. *)
Definition boruvka_init (obj : MinimumSpanningTree) (log : list Event) : State :=
  mkState
    (seq 0 n)
    (repeat None n)
    (repeat None n)
    (if use_lower_bounds then repeat 0%Z n else [])
    0
    (edges obj)
    (match mode with HDBSCAN => repeat 0 (n - 1) | MST => [] end)
    (match mode with HDBSCAN => repeat 0%Z (n - 1) | MST => [] end)
    (match mode with
     | HDBSCAN => repeat 0%Z (2 * n - 1)
     | MST => dendrogram_parents obj
     end)
    (dendrogram_parent_heights obj)
    (_chain_offsets obj)
    (_chain_levels obj)
    0
    (Z.of_nat n)
    0 0
    [0]
    (log ++ [EvFindParents]).

(** Lines 193-268: the body of the [do ... while]. *)
Definition boruvka_round (s : State) : State :=
  let iterations := S (st_iterations s) in
  let labels := st_labels s in
  let found :=
    FindComponentNearestNeighbors n metric labels
      (repeat None n) (repeat None n) (st_lower_bounds s) in
  let weights := fst found in
  let out := snd found in
  let lower_bounds :=
    if use_lower_bounds
    then updateLowerBounds labels out (st_lower_bounds s)
    else st_lower_bounds s in
  let store :=
    update_unidirectional_edges mode (schedule iterations) labels out
      (mkEdgeStore (st_edges s) (st_edges_mapping s) (st_num_edges s)) in
  let num_edges_host := es_count store in
  let mapping :=
    match mode with
    | HDBSCAN => update_bidirectional_edges n labels out (es_mapping store)
    | MST => es_mapping store
    end in
  let sided :=
    match mode with
    | HDBSCAN =>
        if 1 <? iterations
        then updateSidedParents labels (es_edges store) mapping
               (st_sided_parents s) (st_edges_start s) (st_edges_end s)
        else st_sided_parents s
    | MST => st_sided_parents s
    end in
  let parents :=
    match mode with
    | HDBSCAN =>
        if 1 <? iterations
        then st_dendrogram_parents s
        else assignVertexParents n labels mapping (st_dendrogram_parents s)
    | MST => st_dendrogram_parents s
    end in
  mkState
    (update_labels labels out)
    out
    weights
    lower_bounds
    num_edges_host
    (es_edges store)
    mapping
    sided
    parents
    (st_dendrogram_parent_heights s)
    (st_chain_offsets s)
    (st_chain_levels s)
    iterations
    (Z.of_nat n - Z.of_nat num_edges_host)
    (st_edges_end s)
    num_edges_host
    (st_edge_offsets s ++ [num_edges_host])
    (st_log s ++
     [EvIteration iterations (st_num_components s);
      EvReduceLabels; EvResetSharedRadii;
      EvFindComponentNearestNeighbors; EvRetrieveEdges] ++
     (if use_lower_bounds then [EvUpdateLowerBounds] else []) ++
     [EvUnidirectionalEdges] ++
     match mode with
     | HDBSCAN =>
         [EvBidirectionalEdges;
          if 1 <? iterations
          then EvUpdateSidedParents iterations
                 (st_edges_start s) (st_edges_end s)
          else EvAssignVertexParents iterations]
     | MST => []
     end ++
     [EvUpdateLabels]).

(** [do { ... } while (num_components > 1)]; [None] when the fuel is spent
    before the condition fails. *)
Fixpoint boruvka_loop (fuel : nat) (s : State) : option State :=
  match fuel with
  | 0 => None
  | S f =>
      let s' := boruvka_round s in
      if (1 <? st_num_components s')%Z then boruvka_loop f s' else Some s'
  end.

(** Lines 271-278: the scratch views are resized to 0. *)
Definition release_scratch (s : State) : State :=
  mkState [] [] [] [] (st_num_edges s) (st_edges s) []
    (st_sided_parents s) (st_dendrogram_parents s)
    (st_dendrogram_parent_heights s) (st_chain_offsets s) (st_chain_levels s)
    (st_iterations s) (st_num_components s)
    (st_edges_start s) (st_edges_end s) (st_edge_offsets s) (st_log s).

(** Lines 285-288: the edges of the last iteration go to the root chain. *)
Definition assign_root_chain (s : State) : State :=
  mkState (st_labels s) (st_component_out_edges s) (st_weights s)
    (st_lower_bounds s) (st_num_edges s) (st_edges s) (st_edges_mapping s)
    (fill_range (st_edges_start s) (st_edges_end s) ROOT_CHAIN_VALUE
                (st_sided_parents s))
    (st_dendrogram_parents s)
    (st_dendrogram_parent_heights s) (st_chain_offsets s) (st_chain_levels s)
    (st_iterations s) (st_num_components s)
    (st_edges_start s) (st_edges_end s) (st_edge_offsets s)
    (st_log s ++ [EvRootChain (st_edges_start s) (st_edges_end s)]).

(** Lines 290-311: parents, reordered edges, chains and heights. *)
Definition finalize_dendrogram (s : State) : State :=
  let '(es, parents, offsets, levels) :=
    computeParentsAndReorderEdges (st_edges s) (st_edge_offsets s)
      (st_sided_parents s) (st_dendrogram_parents s) in
  mkState (st_labels s) (st_component_out_edges s) (st_weights s)
    (st_lower_bounds s) (st_num_edges s) es (st_edges_mapping s)
    []
    parents
    (map (fun e => weight (nth e es junk_edge)) (seq 0 (n - 1)))
    offsets levels
    (st_iterations s) (st_num_components s)
    (st_edges_start s) (st_edges_end s) (st_edge_offsets s)
    (st_log s ++ [EvComputeParentsAndReorderEdges; EvAssignParentHeights]).

(** [doBoruvka]. *)
Definition doBoruvka (fuel : nat) (obj : MinimumSpanningTree)
    (log : list Event) : option State :=
  match boruvka_loop fuel (boruvka_init obj log) with
  | None => None
  | Some s =>
      let s1 := release_scratch s in
      Some match mode with
           | HDBSCAN => finalize_dendrogram (assign_root_chain s1)
           | MST => s1
           end
  end.
End Driver.

(** ** The constructor *)

Section Constructor.
(** [AccessTraits<Primitives>::size(primitives)], taken positive: for an
    empty input the source allocates [size - 1] edges in unsigned
    arithmetic. *)
Variable n : nat.
(** The Euclidean distance between the points of indices [i] and [j]. *)
Variable euclid : nat -> nat -> Z.
Variable mode : BoruvkaMode.
Variable use_lower_bounds : bool.
Variable schedule : nat -> list nat.
Variable ROOT_CHAIN_VALUE : Z.
Variable updateSidedParents :
  list nat -> list WeightedEdge -> list nat -> list Z -> nat -> nat -> list Z.
Variable computeParentsAndReorderEdges :
  list WeightedEdge -> list nat -> list Z -> list Z ->
  list WeightedEdge * list Z * list Z * list Z.

(** Lines 47-53: the member initializers. *)
Definition initial_object : MinimumSpanningTree :=
  mkMinimumSpanningTree (repeat junk_edge (n - 1)) [] [] [] [].

Definition run_boruvka (m : nat -> nat -> Z) (log : list Event)
  : option State :=
  doBoruvka n m mode use_lower_bounds schedule ROOT_CHAIN_VALUE
    updateSidedParents computeParentsAndReorderEdges (S n)
    initial_object log.

(** Lines 55-97: the body of the constructor, with the object it leaves and
    the log of what it called.  The loop is given [n + 1] iterations. *)
Definition construct (k : Z) : option (MinimumSpanningTree * list Event) :=
  let r :=
    if (1 <? k)%Z then
      let core_distances := compute_core_distances n euclid (Z.to_nat k) in
      run_boruvka (mutual_reachability euclid core_distances)
        [EvConstructBVH; EvComputeCoreDistances k;
         EvBoruvka MutualReachability]
    else
      run_boruvka euclid [EvConstructBVH; EvBoruvka Euclidean] in
  match r with
  | None => None
  | Some s =>
      Some (mkMinimumSpanningTree
              (finalizeEdges n (st_edges s))
              (st_dendrogram_parents s)
              (st_dendrogram_parent_heights s)
              (st_chain_offsets s)
              (st_chain_levels s),
            st_log s ++ [EvFinalizeEdges])
  end.
End Constructor.

(** ** Concrete inputs *)

(** Points on a line with integer coordinates. *)
Definition line_distance (coords : list Z) (i j : nat) : Z :=
  Z.abs (nth i coords 0 - nth j coords 0)%Z.

(** The order of the indices themselves, as a serial execution has it. *)
Definition serial_schedule (n : nat) (_ : nat) : list nat := seq 0 n.

(** Stand-ins for the two dendrogram helpers that are left open. *)
Definition keep_sided_parents (_ : list nat) (_ : list WeightedEdge)
    (_ : list nat) (sided : list Z) (_ _ : nat) : list Z := sided.

Definition keep_edge_order (es : list WeightedEdge) (_ : list nat)
    (_ : list Z) (parents : list Z)
  : list WeightedEdge * list Z * list Z * list Z :=
  (es, parents, [], []).


(** A stand-in for [computeParentsAndReorderEdges] that keeps the order of
    the edges and gives the root as parent to the edges that carry the
    sentinel. *)
Definition root_chain_to_root (ROOT_CHAIN_VALUE root : Z)
    (es : list WeightedEdge) (_ : list nat) (sided parents : list Z)
  : list WeightedEdge * list Z * list Z * list Z :=
  (es,
   map (fun e => match nth_error sided e with
                 | Some v => if (v =? ROOT_CHAIN_VALUE)%Z then root
                             else nth e parents 0%Z
                 | None => nth e parents 0%Z
                 end)
       (seq 0 (Nat.max (length es) (length parents))),
   [], []).

Definition construct_line (mode : BoruvkaMode) (use_lower_bounds : bool)
    (coords : list Z) (k : Z) : option (MinimumSpanningTree * list Event) :=
  construct (length coords) (line_distance coords) mode use_lower_bounds
    (serial_schedule (length coords)) (-1)%Z
    keep_sided_parents keep_edge_order k.

(** ** The driver with the two helper steps as parameters

    FindComponentNearestNeighbors and UpdateComponentsAndEdges are not among
    the sources, and the spec words two of their steps in one way and states
    their purpose in another: the comparison of step 4 of section 4.5 and
    the label update of section 4.6.  The definitions of this section are
    those of [doBoruvka] and of the constructor above, with the comparison
    [combine] and the label rule [relabel] as parameters, so that both
    readings can be run. *)

Section Readings.
Variable combine : DirectedEdge -> option DirectedEdge -> option DirectedEdge.
Variable relabel : list nat -> list (option DirectedEdge) -> nat -> nat.
Variable n : nat.
Variable metric : nat -> nat -> Z.
Variable mode : BoruvkaMode.
Variable use_lower_bounds : bool.
Variable schedule : nat -> list nat.
Variable ROOT_CHAIN_VALUE : Z.
Variable updateSidedParents :
  list nat -> list WeightedEdge -> list nat -> list Z -> nat -> nat -> list Z.
Variable computeParentsAndReorderEdges :
  list WeightedEdge -> list nat -> list Z -> list Z ->
  list WeightedEdge * list Z * list Z * list Z.









End Readings.






(** ** The priority queue: [ArborX::Details::PriorityQueue]

    [src/misc/ArborX_PriorityQueue.hpp].  The container ([Container], a
    [StaticVector<T, 256>] unless the user chooses another) is a list, its
    front the head and its back the last entry; the capacity of the
    container is not part of the class and is not modelled.  The heap
    primitives [pushHeap], [popHeap] and [bubbleDown] come from
    misc/ArborX_Heap.hpp, which is not among the sources: they are
    parameters, each a rearrangement in place of the range it is given. *)

Section Queue.
(** The element type and [Compare], [Less<T>] by default: [compare a b]
    holds when [a] is ordered before [b]. *)
Variable T : Type.
Variable compare : T -> T -> bool.

(** [pushHeap(first, last, comp)] and [popHeap(first, last, comp)] on the
    whole container; [bubbleDown(first, pos, len, val, comp)]. *)
Variable pushHeap : list T -> list T.
Variable popHeap : list T -> list T.
Variable bubbleDown : list T -> nat -> nat -> T -> list T.

(** [isHeap(first, last, comp)], also of misc/ArborX_Heap.hpp, in the sense
    of [std::is_heap]: no entry is ordered before the entry at one of its
    two child positions, the children of position [p] being [2p + 1] and
    [2p + 2]. *)
Definition isHeap (c : list T) : bool :=
  forallb (fun i =>
             match nth_error c ((i - 1) / 2), nth_error c i with
             | Some p, Some x => negb (compare p x)
             | _, _ => true
             end)
          (seq 1 (length c - 1)).

Record PriorityQueue := mkPriorityQueue { _c : list T }.

(** [PriorityQueue() = default]. *)
Definition emptyQueue : PriorityQueue := mkPriorityQueue [].

(** [PriorityQueue(Container const &c)]; [None] when the assertion fails. *)
Definition fromContainer (c : list T) : option PriorityQueue :=
  if match c with [] => true | _ => false end || isHeap c
  then Some (mkPriorityQueue c)
  else None.

Definition empty (q : PriorityQueue) : bool :=
  match _c q with [] => true | _ => false end.

Definition size (q : PriorityQueue) : nat := length (_c q).

(** [top()] is [_c.front()], which an empty container does not have. *)
Definition top (q : PriorityQueue) : option T := hd_error (_c q).

(** [push(value)]: [pushBack], then [pushHeap] on the whole range. *)
Definition push (value : T) (q : PriorityQueue) : PriorityQueue :=
  mkPriorityQueue (pushHeap (_c q ++ [value])).

(** [emplace(args...)]: as [push], the value being built in place. *)
Definition emplace (value : T) (q : PriorityQueue) : PriorityQueue :=
  mkPriorityQueue (pushHeap (_c q ++ [value])).

(** [pop()]: [popHeap] on the whole range, then [popBack]. *)
Definition pop (q : PriorityQueue) : PriorityQueue :=
  mkPriorityQueue (removelast (popHeap (_c q))).

(** [popPush(args...)]: the assertion, then one [bubbleDown] from the root;
    [None] when the assertion fails. *)
Definition popPush (value : T) (q : PriorityQueue) : option PriorityQueue :=
  if empty q then None
  else Some (mkPriorityQueue (bubbleDown (_c q) 0 (length (_c q)) value)).

Definition data (q : PriorityQueue) : list T := _c q.

(** A use of the queue through its modifiers.  [pop()] of an empty queue
    ends the run: it would take the back of an empty container. *)
Inductive Op := OpPush (value : T) | OpPop | OpPopPush (value : T).

Definition step (q : PriorityQueue) (o : Op) : option PriorityQueue :=
  match o with
  | OpPush value => Some (push value q)
  | OpPop => if empty q then None else Some (pop q)
  | OpPopPush value => popPush value q
  end.

Fixpoint run (ops : list Op) (q : PriorityQueue) : option PriorityQueue :=
  match ops with
  | [] => Some q
  | o :: rest =>
      match step q o with
      | Some q' => run rest q'
      | None => None
      end
  end.

(** [while (!q.empty()) { out.push_back(q.top()); q.pop(); }], for at most
    [fuel] turns. *)
Fixpoint drain (fuel : nat) (q : PriorityQueue) : list T :=
  match fuel with
  | 0 => []
  | S f =>
      match top q with
      | Some x => x :: drain f (pop q)
      | None => []
      end
  end.

Definition is_push (o : Op) : bool :=
  match o with OpPush _ => true | _ => false end.

Definition is_pop (o : Op) : bool :=
  match o with OpPop => true | _ => false end.
End Queue.

(** Stand-ins for the heap primitives on numbers under [<]: each leaves its
    range in descending order, which is a heap. *)
Definition descending (c : list nat) : list nat :=
  sort_by (fun a b => b <? a) c.

Definition sorting_pushHeap (c : list nat) : list nat := descending c.

Definition sorting_popHeap (c : list nat) : list nat :=
  match c with
  | [] => []
  | x :: rest => descending rest ++ [x]
  end.

Definition sorting_bubbleDown (c : list nat) (pos len : nat) (val : nat)
  : list nat :=
  match c with
  | [] => []
  | _ :: rest => descending (val :: rest)
  end.

(** ** The accessibility traits of KokkosExt

    [src/kokkos_ext/ArborX_KokkosExtAccessibilityTraits.hpp].  A trait is a
    function of its template arguments: [Some b] when the instantiation
    compiles and its [value] is [b], [None] when a static assertion of the
    trait rejects it.  The traits of Kokkos the header builds on are
    parameters. *)

Section AccessibilityTraits.
(** The types that are passed as spaces, and [Kokkos::HostSpace]. *)
Variable Space : Type.
Variable HostSpace : Space.
(** [Kokkos::is_memory_space<S>::value], [Kokkos::is_execution_space<S>::value]
    and [Kokkos::SpaceAccessibility<AccessSpace, MemorySpace>::accessible]. *)
Variable is_memory_space : Space -> bool.
Variable is_execution_space : Space -> bool.
Variable accessible : Space -> Space -> bool.
(** The types that are passed as views: [Kokkos::is_view<V>::value] and
    [V::memory_space]. *)
Variable View : Type.
Variable is_view : View -> bool.
Variable memory_space : View -> Space.

(** The partial specialization is chosen when the memory space is
    accessible; the primary template otherwise, with its two assertions. *)
Definition is_accessible_from (MemorySpace ExecutionSpace : Space)
  : option bool :=
  if accessible ExecutionSpace MemorySpace then Some true
  else if is_memory_space MemorySpace && is_execution_space ExecutionSpace
       then Some false
       else None.

(** [is_accessible_from<typename View::memory_space, Kokkos::HostSpace>],
    with the assertion that [View] is a view. *)
Definition is_accessible_from_host (v : View) : option bool :=
  match is_accessible_from (memory_space v) HostSpace with
  | Some b => if is_view v then Some b else None
  | None => None
  end.
End AccessibilityTraits.

(** A stand-in for Kokkos: two memory spaces, two execution spaces, and a
    view for each memory space. *)
Inductive SampleSpace := SampleHostSpace | SampleDeviceSpace
                       | SampleSerial | SampleDevice.

Definition sample_is_memory_space (s : SampleSpace) : bool :=
  match s with SampleHostSpace | SampleDeviceSpace => true | _ => false end.

Definition sample_is_execution_space (s : SampleSpace) : bool :=
  match s with SampleSerial | SampleDevice => true | _ => false end.

Definition sample_accessible (access memory : SampleSpace) : bool :=
  match access, memory with
  | (SampleHostSpace | SampleSerial), SampleHostSpace => true
  | (SampleDeviceSpace | SampleDevice), SampleDeviceSpace => true
  | _, _ => false
  end.

(** * Properties *)

(** ** The order on edges is a strict total order on keys *)

Ltac bool_props :=
  repeat rewrite ?orb_true_iff, ?andb_true_iff, ?orb_false_iff,
    ?andb_false_iff, ?negb_true_iff, ?negb_false_iff,
    ?Z.ltb_lt, ?Z.ltb_ge, ?Z.eqb_eq, ?Z.eqb_neq,
    ?Nat.ltb_lt, ?Nat.ltb_ge, ?Nat.eqb_eq, ?Nat.eqb_neq in *.

Ltac key_solve :=
  unfold dedge_ltb, wedge_ltb, key_ltb in *; simpl in *; bool_props; lia.

Lemma key_ltb_irrefl w a b : key_ltb w a b w a b = false.
Proof. key_solve. Qed.

Lemma key_ltb_trans w1 a1 b1 w2 a2 b2 w3 a3 b3 :
  key_ltb w1 a1 b1 w2 a2 b2 = true ->
  key_ltb w2 a2 b2 w3 a3 b3 = true ->
  key_ltb w1 a1 b1 w3 a3 b3 = true.
Proof. intros H1 H2. key_solve. Qed.

Lemma key_ltb_asym w1 a1 b1 w2 a2 b2 :
  key_ltb w1 a1 b1 w2 a2 b2 = true -> key_ltb w2 a2 b2 w1 a1 b1 = false.
Proof. intros H1. key_solve. Qed.

Lemma key_ltb_total w1 a1 b1 w2 a2 b2 :
  key_ltb w1 a1 b1 w2 a2 b2 = false ->
  key_ltb w2 a2 b2 w1 a1 b1 = false ->
  w1 = w2 /\ Nat.min a1 b1 = Nat.min a2 b2 /\ Nat.max a1 b1 = Nat.max a2 b2.
Proof. intros H1 H2. key_solve. Qed.

Lemma key_ltb_swap w1 a1 b1 w2 a2 b2 :
  key_ltb w1 a1 b1 w2 a2 b2 = key_ltb w1 b1 a1 w2 a2 b2 /\
  key_ltb w1 a1 b1 w2 a2 b2 = key_ltb w1 a1 b1 w2 b2 a2.
Proof. unfold key_ltb. rewrite (Nat.min_comm a1 b1), (Nat.max_comm a1 b1),
  (Nat.min_comm a2 b2), (Nat.max_comm a2 b2). split; reflexivity. Qed.

(** ** Views *)

Lemma view_set_length A i (x : A) v : length (view_set i x v) = length v.
Proof. revert i; induction v; destruct i; simpl; auto. Qed.

Lemma nth_view_set A i j (x d : A) v :
  nth j (view_set i x v) d =
  if (j =? i) && (i <? length v) then x else nth j v d.
Proof.
  revert i j; induction v as [|h t IH]; intros [|i] [|j]; simpl;
    rewrite ?andb_false_r; auto.
Qed.

Lemma view_set_same A i (d : A) v : view_set i (nth i v d) v = v.
Proof.
  revert i; induction v as [|h t IH]; intros [|i]; simpl; auto.
  rewrite IH; reflexivity.
Qed.

Lemma firstn_view_set_end A i (x : A) v :
  i < length v -> firstn (S i) (view_set i x v) = firstn i v ++ [x].
Proof.
  revert i; induction v as [|h t IH]; intros [|i] H; simpl in *; try lia; auto.
  rewrite IH by lia. reflexivity.
Qed.

(** ** Graphs given by a list of edges *)

(** Two points are connected when a walk along the edges joins them. *)
Inductive connected (E : list WeightedEdge) : nat -> nat -> Prop :=
| conn_refl a : connected E a a
| conn_edge e : In e E -> connected E (source e) (target e)
| conn_sym a b : connected E a b -> connected E b a
| conn_trans a b c : connected E a b -> connected E b c -> connected E a c.



(** A forest built edge by edge, each edge joining two parts not yet joined. *)
Inductive forest : list WeightedEdge -> Prop :=
| forest_nil : forest []
| forest_cons e E :
    forest E -> ~ connected E (source e) (target e) -> forest (e :: E).

Create HintDb graph.
#[local] Hint Constructors connected : graph.

Lemma connected_incl E E' a b :
  incl E E' -> connected E a b -> connected E' a b.
Proof. intros Hi H; induction H; eauto with graph. Qed.

Lemma connected_perm E E' a b :
  Permutation E E' -> connected E a b -> connected E' a b.
Proof.
  intros Hp. apply connected_incl. intros x Hx.
  eapply Permutation_in; eauto.
Qed.

(** A walk in [e :: E] either avoids [e] or crosses it. *)
Lemma connected_cons_inv e E a b :
  connected (e :: E) a b ->
  connected E a b \/
  (connected E a (source e) /\ connected E (target e) b) \/
  (connected E a (target e) /\ connected E (source e) b).
Proof.
  induction 1 as [a|x Hx|a b H IH|a b c H1 IH1 H2 IH2].
  - auto with graph.
  - destruct Hx as [<-|Hx]; auto 6 with graph.
  - destruct IH as [IH|[[IH1 IH2]|[IH1 IH2]]]; auto 6 with graph.
  - destruct IH1 as [IH1|[[IH1 IH1']|[IH1 IH1']]];
      destruct IH2 as [IH2|[[IH2 IH2']|[IH2 IH2']]]; eauto 7 with graph.
Qed.

Lemma forest_swap e1 e2 E : forest (e1 :: e2 :: E) -> forest (e2 :: e1 :: E).
Proof.
  intros H. inversion H as [|? ? H2 Hn1]; subst.
  inversion H2 as [|? ? H3 Hn2]; subst.
  constructor.
  - constructor; auto. intros Hc. apply Hn1.
    eapply connected_incl; [|exact Hc]. intros x Hx; right; exact Hx.
  - intros Hc. apply connected_cons_inv in Hc.
    destruct Hc as [Hc|[[Ha Hb]|[Ha Hb]]]; auto.
    + apply Hn1.
      assert (Hi : incl E (e2 :: E)) by (intros x Hx; right; exact Hx).
      apply conn_trans with (source e2).
      * apply conn_sym. apply (connected_incl Hi Ha).
      * apply conn_trans with (target e2).
        -- apply conn_edge. left; reflexivity.
        -- apply conn_sym. apply (connected_incl Hi Hb).
    + apply Hn1.
      assert (Hi : incl E (e2 :: E)) by (intros x Hx; right; exact Hx).
      apply conn_trans with (target e2).
      * apply (connected_incl Hi Hb).
      * apply conn_trans with (source e2).
        -- apply conn_sym. apply conn_edge. left; reflexivity.
        -- apply (connected_incl Hi Ha).
Qed.

Lemma forest_perm E E' : Permutation E E' -> forest E -> forest E'.
Proof.
  induction 1 as [|x l l' Hp IH|x y l|l l' l'' H1 IH1 H2 IH2]; intros Hf; auto.
  - inversion Hf; subst. constructor; auto.
    intros Hc. apply (connected_perm (Permutation_sym Hp)) in Hc. auto.
  - apply forest_swap; exact Hf.
Qed.


(** Connectivity cannot leave a set of points no edge leaves. *)
Lemma connected_closed (P : nat -> Prop) E :
  (forall e, In e E -> (P (source e) <-> P (target e))) ->
  forall a b, connected E a b -> (P a <-> P b).
Proof.
  intros HE a b H; induction H; try tauto. auto.
Qed.

(** ** The nearest neighbours of the components *)

Definition better_fold := fold_left (fun acc e : _ => better e acc).

Lemma better_fold_none l cur :
    better_fold l cur = None <-> cur = None /\ l = [].
Proof.
    unfold better_fold.
    revert cur; induction l as [|x l IH]; intros cur; simpl.
    - tauto.
    - rewrite IH. split; [intros [H _]|intros [_ H]; discriminate].
      destruct cur as [c|]; simpl in H; [destruct (dedge_ltb x c)|];
        discriminate.
Qed.

Lemma better_fold_in l cur e :
    better_fold l cur = Some e -> cur = Some e \/ In e l.
Proof.
    unfold better_fold.
    revert cur; induction l as [|x l IH]; intros cur; simpl; auto.
    intros H. apply IH in H. destruct H as [H|H]; auto.
    destruct cur as [c|]; simpl in H.
    - destruct (dedge_ltb x c); inversion H; subst; auto.
    - inversion H; auto.
Qed.

Lemma better_fold_min l cur e :
    better_fold l cur = Some e ->
    (forall x, cur = Some x -> dedge_ltb x e = false) /\
    (forall x, In x l -> dedge_ltb x e = false).
Proof.
    unfold better_fold.
    revert cur; induction l as [|x l IH]; intros cur; simpl.
    - intros ->. split; [|tauto].
      intros x Hx; inversion Hx; subst. apply key_ltb_irrefl.
    - intros H. destruct (IH _ H) as [H1 H2]. split.
      + intros y ->. simpl in H1.
        destruct (dedge_ltb x y) eqn:Hxy.
        * specialize (H1 _ eq_refl). key_solve.
        * apply H1; reflexivity.
      + intros y [<-|Hy]; auto.
        destruct cur as [c|]; simpl in H1.
        * destruct (dedge_ltb x c) eqn:Hxc.
          -- apply H1; reflexivity.
          -- specialize (H1 _ eq_refl). key_solve.
        * apply H1; reflexivity.
Qed.

Lemma better_fold_keep l e :
    (forall x, In x l -> dedge_ltb x e = false) ->
    better_fold l (Some e) = Some e.
Proof.
    unfold better_fold.
    induction l as [|x l IH]; simpl; auto.
    intros H. rewrite (H x) by auto. apply IH. auto.
Qed.

Section FCNN.
Variable n : nat.
Variable metric : nat -> nat -> Z.

Variable labels : list nat.

  (** All the candidates of component [c]: the pairs with exactly the first
      end in [c]. *)
Definition class_candidates (c : nat) : list DirectedEdge :=
    flat_map (fun i => if label_of labels i =? c
                       then leaf_candidates n metric labels i else [])
             (seq 0 n).

Lemma in_leaf_candidates i e :
    In e (leaf_candidates n metric labels i) <->
    exists j, j < n /\ label_of labels j <> label_of labels i /\
              e = mkDirectedEdge i j (metric i j).
Proof.
    unfold leaf_candidates. rewrite in_map_iff. split.
    - intros [j [<- Hj]]. apply filter_In in Hj. destruct Hj as [Hj Hb].
      apply in_seq in Hj. exists j. repeat split; try lia.
      apply negb_true_iff, Nat.eqb_neq in Hb. exact Hb.
    - intros [j [Hj [Hl ->]]]. exists j. split; auto.
      apply filter_In. split; [apply in_seq; lia|].
      apply negb_true_iff, Nat.eqb_neq. exact Hl.
Qed.

Lemma in_class_candidates c e :
    In e (class_candidates c) <->
    exists i j, i < n /\ j < n /\ label_of labels i = c /\
                label_of labels j <> c /\
                e = mkDirectedEdge i j (metric i j).
Proof.
    unfold class_candidates. rewrite in_flat_map. split.
    - intros [i [Hi He]]. apply in_seq in Hi.
      destruct (Nat.eqb_spec (label_of labels i) c) as [Hc|Hc]; [|destruct He].
      apply in_leaf_candidates in He. destruct He as [j [Hj [Hl ->]]].
      exists i, j. repeat split; try lia; congruence.
    - intros [i [j [Hi [Hj [Hc [Hl ->]]]]]]. exists i. split.
      + apply in_seq; lia.
      + rewrite (proj2 (Nat.eqb_eq _ _) Hc). apply in_leaf_candidates.
        exists j. repeat split; auto. congruence.
Qed.

  (** The edge of least key among the candidates of [c]. *)
Definition class_out (c : nat) : option DirectedEdge :=
    better_fold (class_candidates c) None.

Lemma fold_leaves_flat c (l : list nat) cur :
    fold_left (fun acc i => if label_of labels i =? c
                            then traverse n metric labels i acc else acc)
              l cur =
    better_fold
      (flat_map (fun i => if label_of labels i =? c
                          then leaf_candidates n metric labels i else []) l)
      cur.
Proof.
    unfold better_fold.
    revert cur; induction l as [|i l IH]; intros cur; simpl; auto.
    rewrite fold_left_app, IH.
    destruct (label_of labels i =? c); reflexivity.
Qed.

  (** The two scratch views agree: [weights[c]] is the weight of
      [component_out_edges[c]]. *)
Definition weights_agree (st : list (option Z) * list (option DirectedEdge))
    : Prop :=
    length (fst st) = length (snd st) /\
    forall c, nth c (fst st) None = option_map dweight (nth c (snd st) None).

Lemma fcnn_leaf_agree st i :
    weights_agree st -> weights_agree (fcnn_leaf n metric labels [] st i).
Proof.
    intros [Hl Ha]. unfold fcnn_leaf; simpl. split; simpl.
    - rewrite !view_set_length. exact Hl.
    - intros c. rewrite !nth_view_set, Hl.
      destruct ((c =? label_of labels i) &&
                (label_of labels i <? length (snd st))); auto.
Qed.

  (** A bound below every candidate of leaf [i]. *)
Definition bound_ok (lower_bounds : list Z) (i : nat) : Prop :=
    forall j, j < n -> label_of labels j <> label_of labels i ->
              (nth i lower_bounds 0 <= metric i j)%Z.

  (** A leaf the cache skips would not have changed anything. *)
Lemma fcnn_leaf_cache lower_bounds st i :
    weights_agree st -> bound_ok lower_bounds i ->
    fcnn_leaf n metric labels lower_bounds st i =
    fcnn_leaf n metric labels [] st i.
Proof.
    intros [Hl Ha] Hb. unfold fcnn_leaf. simpl.
    destruct (i <? length lower_bounds); simpl; auto.
    destruct (exceeds _ _) eqn:Hex; auto.
    unfold exceeds in Hex. rewrite Ha in Hex.
    destruct (nth (label_of labels i) (snd st) None) as [e|] eqn:He;
      simpl in Hex; [|discriminate].
    apply Z.ltb_lt in Hex.
    assert (Ht : traverse n metric labels i (Some e) = Some e).
    { apply better_fold_keep. intros x Hx.
      apply in_leaf_candidates in Hx. destruct Hx as [j [Hj [Hlj ->]]].
      specialize (Hb j Hj Hlj). key_solve. }
    rewrite Ht. simpl.
    assert (H1 : view_set (label_of labels i) (Some e) (snd st) = snd st)
      by (rewrite <- He; apply view_set_same).
    assert (H2 : view_set (label_of labels i) (Some (dweight e)) (fst st)
                 = fst st).
    { replace (Some (dweight e))
        with (nth (label_of labels i) (fst st) None)
        by (rewrite Ha, He; reflexivity).
      apply view_set_same. }
    rewrite H1, H2. destruct st; reflexivity.
Qed.

Lemma fcnn_fold_cache lower_bounds l st :
    weights_agree st -> (forall i, In i l -> bound_ok lower_bounds i) ->
    fold_left (fcnn_leaf n metric labels lower_bounds) l st =
    fold_left (fcnn_leaf n metric labels []) l st.
Proof.
    revert st; induction l as [|i l IH]; simpl; auto.
    intros st Ha Hb. rewrite fcnn_leaf_cache by auto.
    apply IH; auto. apply fcnn_leaf_agree, Ha.
Qed.

Lemma fcnn_fold_nth l st c :
    c < length (snd st) ->
    nth c (snd (fold_left (fcnn_leaf n metric labels []) l st)) None =
    fold_left (fun acc i => if label_of labels i =? c
                            then traverse n metric labels i acc else acc)
              l (nth c (snd st) None).
Proof.
    revert st; induction l as [|i l IH]; intros st Hc; simpl; auto.
    rewrite IH.
    - f_equal. unfold fcnn_leaf; simpl. rewrite nth_view_set.
      rewrite (Nat.eqb_sym c).
      destruct (Nat.eqb_spec (label_of labels i) c) as [->|Hn]; simpl; auto.
      rewrite (proj2 (Nat.ltb_lt _ _) Hc). reflexivity.
    - unfold fcnn_leaf; simpl. rewrite view_set_length. exact Hc.
Qed.

Lemma fcnn_fold_length l st :
    length (snd (fold_left (fcnn_leaf n metric labels []) l st)) =
    length (snd st).
Proof.
    revert st; induction l as [|i l IH]; intros st; simpl; auto.
    rewrite IH. unfold fcnn_leaf; simpl. apply view_set_length.
Qed.

  (** What the search leaves in [component_out_edges], with or without a
      sound cache. *)
Definition found (lower_bounds : list Z) : list (option DirectedEdge) :=
    snd (FindComponentNearestNeighbors n metric labels
           (repeat None n) (repeat None n) lower_bounds).

Lemma agree_init : weights_agree (repeat (@None Z) n, repeat (@None DirectedEdge) n).
Proof.
    split; simpl.
    - rewrite !repeat_length; reflexivity.
    - intros c. rewrite !nth_repeat. reflexivity.
Qed.

Lemma FCNN_cache lower_bounds :
    (forall i, i < n -> bound_ok lower_bounds i) ->
    FindComponentNearestNeighbors n metric labels
      (repeat None n) (repeat None n) lower_bounds =
    FindComponentNearestNeighbors n metric labels
      (repeat None n) (repeat None n) [].
Proof.
    intros H. unfold FindComponentNearestNeighbors.
    apply fcnn_fold_cache; [apply agree_init|].
    intros i Hi. apply in_seq in Hi. apply H. lia.
Qed.

Lemma found_length : length (found []) = n.
Proof.
    unfold found, FindComponentNearestNeighbors.
    rewrite fcnn_fold_length. simpl. apply repeat_length.
Qed.

Lemma found_nth c : c < n -> nth c (found []) None = class_out c.
Proof.
    intros Hc. unfold found, FindComponentNearestNeighbors.
    rewrite fcnn_fold_nth by (simpl; rewrite repeat_length; exact Hc).
    simpl. rewrite nth_repeat. apply fold_leaves_flat.
Qed.
End FCNN.

(** ** One round on labels that name components *)

Lemma filter_length_le A (p q : A -> bool) l :
  (forall y, In y l -> p y = true -> q y = true) ->
  length (filter p l) <= length (filter q l).
Proof.
  induction l as [|a l IH]; simpl; auto. intros H.
  assert (IH' : length (filter p l) <= length (filter q l)) by auto.
  destruct (p a) eqn:Hp.
  - rewrite (H a) by auto. simpl. lia.
  - destruct (q a); simpl; lia.
Qed.

Lemma filter_length_lt A (p q : A -> bool) l x :
  (forall y, In y l -> p y = true -> q y = true) ->
  In x l -> p x = false -> q x = true ->
  length (filter p l) < length (filter q l).
Proof.
  induction l as [|a l IH]; simpl; [tauto|]. intros H Hx Hp Hq.
  assert (Hle : length (filter p l) <= length (filter q l))
    by (apply filter_length_le; auto).
  destruct Hx as [->|Hx].
  - rewrite Hp, Hq. simpl. lia.
  - assert (IH' : length (filter p l) < length (filter q l)) by auto.
    destruct (p a) eqn:Hpa.
    + rewrite (H a) by auto. simpl. lia.
    + destruct (q a); simpl; lia.
Qed.

Lemma nth_map_seq A (h : nat -> A) len i d :
  i < len -> nth i (map h (seq 0 len)) d = h i.
Proof.
  intros H. rewrite nth_indep with (d' := h 0)
    by (rewrite length_map, length_seq; exact H).
  rewrite map_nth, seq_nth by exact H. reflexivity.
Qed.

Lemma iter_double (g : nat -> nat) m i :
  Nat.iter m (fun x => g (g x)) i = Nat.iter (2 * m) g i.
Proof.
  induction m as [|m IH]; simpl; auto.
  rewrite IH. replace (m + S (m + 0)) with (S (2 * m)) by lia.
  reflexivity.
Qed.

Lemma iter_add (g : nat -> nat) a b i :
  Nat.iter (a + b) g i = Nat.iter a g (Nat.iter b g i).
Proof. induction a; simpl; congruence. Qed.

(** ** Path compression *)

Lemma sweep_labels_length P : length (sweep_labels P) = length P.
Proof. unfold sweep_labels. rewrite length_map, length_seq. reflexivity. Qed.

Lemma label_of_overflow P i : length P <= i -> label_of P i = i.
Proof. intros H. unfold label_of. apply nth_overflow, H. Qed.

Lemma sweep_labels_spec P i :
  label_of (sweep_labels P) i = label_of P (label_of P i).
Proof.
  destruct (Nat.lt_ge_cases i (length P)) as [H|H].
  - unfold sweep_labels. unfold label_of at 1.
    rewrite nth_map_seq by exact H. reflexivity.
  - rewrite label_of_overflow by (rewrite sweep_labels_length; exact H).
    rewrite (label_of_overflow P H). symmetry. apply label_of_overflow, H.
Qed.

Lemma compress_labels_length fuel P :
  length (compress_labels fuel P) = length P.
Proof.
  revert P; induction fuel as [|f IH]; intros P; simpl; auto.
  destruct (list_eq_dec _ _ _); auto.
  rewrite IH. apply sweep_labels_length.
Qed.

(** The sweeps compute an iterate of the pointer map: one of at least
    [2^fuel] steps, or one that is idempotent. *)
Lemma compress_labels_iter fuel :
  forall P (g : nat -> nat),
    (forall i, label_of P i = g i) ->
    exists M, 1 <= M /\
      (forall i, label_of (compress_labels fuel P) i = Nat.iter M g i) /\
      (2 ^ fuel <= M \/
       forall i, Nat.iter M g (Nat.iter M g i) = Nat.iter M g i).
Proof.
  induction fuel as [|f IH]; intros P g Hg; simpl.
  - exists 1. simpl. auto.
  - destruct (list_eq_dec Nat.eq_dec (sweep_labels P) P) as [He|He].
    + exists 1. simpl. repeat split; auto. right. intros i.
      rewrite <- !Hg, <- sweep_labels_spec, He. reflexivity.
    + destruct (IH (sweep_labels P) (fun x => g (g x))) as [M [HM [Hi Hc]]].
      { intros i. rewrite sweep_labels_spec, !Hg. reflexivity. }
      exists (2 * M). repeat split; try lia.
      * intros i. rewrite Hi. apply iter_double.
      * destruct Hc as [Hc|Hc]; [left; lia|right].
        intros i. rewrite <- !iter_double. apply Hc.
Qed.

(** ** Sorting *)

Section SortFacts.
Variable A : Type.
Variable ltb : A -> A -> bool.
Hypothesis ltb_asym : forall x y, ltb x y = true -> ltb y x = false.
Hypothesis ltb_le_trans :
  forall x y z, ltb y x = false -> ltb z y = false -> ltb z x = false.

Lemma insert_sorted_perm x l : Permutation (insert_sorted ltb x l) (x :: l).
Proof.
  induction l as [|y t IH]; simpl; auto.
  destruct (ltb y x); auto.
  rewrite IH. apply perm_swap.
Qed.

Lemma sort_by_perm l : Permutation (sort_by ltb l) l.
Proof.
  induction l as [|x t IH]; simpl; auto.
  rewrite insert_sorted_perm. auto.
Qed.

(** Sorted: nothing is smaller than something before it. *)
Definition ordered := StronglySorted (fun a b => ltb b a = false).

Lemma insert_sorted_ordered x l : ordered l -> ordered (insert_sorted ltb x l).
Proof.
  unfold ordered.
  induction l as [|y t IH]; simpl; intros H.
  - repeat constructor.
  - inversion H as [|? ? Ht Hy]; subst.
    destruct (ltb y x) eqn:Hyx.
    + constructor; auto.
      rewrite Forall_forall in *. intros z Hz.
      apply (Permutation_in _ (insert_sorted_perm x t)) in Hz.
      destruct Hz as [<-|Hz]; auto.
    + constructor; auto. constructor; auto.
      rewrite Forall_forall in *. intros z Hz.
      apply ltb_le_trans with y; auto.
Qed.

Lemma sort_by_ordered l : ordered (sort_by ltb l).
Proof.
  induction l as [|x t IH]; simpl.
  - constructor.
  - apply insert_sorted_ordered, IH.
Qed.

End SortFacts.

Lemma filter_perm A (f : A -> bool) l l' :
  Permutation l l' -> Permutation (filter f l) (filter f l').
Proof.
  induction 1 as [|x l l' H IH|x y l|l l' l'' H1 IH1 H2 IH2]; simpl; auto.
  - destruct (f x); auto.
  - destruct (f x), (f y); auto. apply perm_swap.
  - eapply Permutation_trans; eauto.
Qed.

Lemma wedge_ltb_asym x y : wedge_ltb x y = true -> wedge_ltb y x = false.
Proof. apply key_ltb_asym. Qed.

Lemma wedge_ltb_le_trans x y z :
  wedge_ltb y x = false -> wedge_ltb z y = false -> wedge_ltb z x = false.
Proof. intros H1 H2. key_solve. Qed.

Lemma filter_split_length A (p q : A -> bool) l :
  length (filter p l) =
  length (filter (fun x => p x && q x) l) +
  length (filter (fun x => p x && negb (q x)) l).
Proof.
  induction l as [|a l IH]; simpl; auto.
  destruct (p a), (q a); simpl; lia.
Qed.

Lemma injection_length A (phi : A -> A) l l' :
  NoDup l -> (forall x, In x l -> In (phi x) l') ->
  (forall x y, In x l -> In y l -> phi x = phi y -> x = y) ->
  length l <= length l'.
Proof.
  intros Hnd Hin Hinj. rewrite <- (length_map phi l).
  apply NoDup_incl_length.
  - apply NoDup_map_NoDup_ForallPairs; auto.
  - intros y Hy. apply in_map_iff in Hy. destruct Hy as [x [<- Hx]]. auto.
Qed.

Section Round.
Variable n : nat.
Variable metric : nat -> nat -> Z.
Variable labels : list nat.

Hypothesis metric_sym : forall i j, metric i j = metric j i.
Hypothesis labels_length : length labels = n.
Hypothesis labels_roots : forall i, i < n ->
  label_of labels i < n /\
  label_of labels (label_of labels i) = label_of labels i.

Definition lab := label_of labels.
Definition out_edges := found n metric labels [].
Definition out (c : nat) := nth c out_edges None.
Definition nxt := next_component labels out_edges.

Definition is_root (c : nat) : Prop := c < n /\ lab c = c.

Lemma lab_is_root i : i < n -> is_root (lab i).
Proof. intros H. destruct (labels_roots H). split; assumption. Qed.

Lemma out_overflow c : n <= c -> out c = None.
Proof.
  intros H. unfold out, out_edges. apply nth_overflow.
  rewrite found_length. exact H.
Qed.

Lemma out_lt c e : out c = Some e -> c < n.
Proof.
  intros H. destruct (Nat.lt_ge_cases c n); auto.
  rewrite out_overflow in H by assumption. discriminate.
Qed.

Lemma out_in c e :
  out c = Some e ->
  dsource e < n /\ dtarget e < n /\ lab (dsource e) = c /\
  lab (dtarget e) <> c /\ dweight e = metric (dsource e) (dtarget e).
Proof.
  intros H. pose proof (out_lt _ H) as Hc.
  unfold out, out_edges in H. rewrite found_nth in H by exact Hc.
  apply better_fold_in in H. destruct H as [H|H]; [discriminate|].
  apply in_class_candidates in H.
  destruct H as [i [j [Hi [Hj [Hl [Hn ->]]]]]]. simpl. auto.
Qed.

Lemma out_min c e i j :
  out c = Some e -> i < n -> j < n -> lab i = c -> lab j <> c ->
  dedge_ltb (mkDirectedEdge i j (metric i j)) e = false.
Proof.
  intros H Hi Hj Hl Hn. pose proof (out_lt _ H) as Hc.
  unfold out, out_edges in H. rewrite found_nth in H by exact Hc.
  apply better_fold_min in H. apply (proj2 H).
  apply in_class_candidates. exists i, j. unfold lab in *. repeat split; auto.
Qed.

Lemma out_some c i j :
  i < n -> j < n -> lab i = c -> lab j <> c -> exists e, out c = Some e.
Proof.
  intros Hi Hj Hl Hn.
  assert (Hc : c < n) by (rewrite <- Hl; apply (labels_roots Hi)).
  unfold out, out_edges. rewrite found_nth by exact Hc.
  destruct (class_out n metric labels c) as [e|] eqn:He; eauto.
  apply better_fold_none in He. destruct He as [_ He].
  assert (Hin : In (mkDirectedEdge i j (metric i j))
                   (class_candidates n metric labels c))
    by (apply in_class_candidates; exists i, j; unfold lab in *; repeat split; auto).
  rewrite He in Hin. destruct Hin.
Qed.

Lemma out_root c e : out c = Some e -> is_root c.
Proof.
  intros H. destruct (out_in _ H) as [Hs [_ [Hl _]]].
  rewrite <- Hl. apply lab_is_root, Hs.
Qed.

(** The component a winner leads to has a winner of its own, no larger. *)
Lemma partner_out c e :
  out c = Some e ->
  exists e', out (lab (dtarget e)) = Some e' /\ dedge_ltb e e' = false.
Proof.
  intros H. destruct (out_in _ H) as [Hs [Ht [Hl [Hn Hw]]]].
  destruct (@out_some (lab (dtarget e)) (dtarget e) (dsource e))
    as [e' He']; auto; try congruence.
  exists e'. split; auto.
  pose proof (@out_min _ _ (dtarget e) (dsource e) He' Ht Hs eq_refl) as Hm.
  rewrite Hl in Hm. specialize (Hm (not_eq_sym Hn)).
  rewrite (metric_sym (dtarget e) (dsource e)), <- Hw in Hm.
  key_solve.
Qed.

(** Two winners that are not each other's reverse are strictly ordered. *)
Lemma partner_strict c e e' :
  out c = Some e -> out (lab (dtarget e)) = Some e' ->
  mutual_pair e (Some e') = false -> dedge_ltb e' e = true.
Proof.
  intros H He' Hm.
  destruct (out_in _ H) as [Hs [Ht [Hl [Hn Hw]]]].
  destruct (out_in _ He') as [Hs' [Ht' [Hl' [Hn' Hw']]]].
  destruct (partner_out _ H) as [e2 [He2 Hle]].
  rewrite He' in He2. inversion He2; subst e2.
  destruct (dedge_ltb e' e) eqn:Hlt; auto. exfalso.
  pose proof (key_ltb_total _ _ _ _ _ _ Hle Hlt) as [_ [Hmin Hmax]].
  simpl in Hm. apply andb_false_iff in Hm.
  assert (Hne : dsource e' <> dsource e) by congruence.
  destruct Hm as [Hm|Hm]; apply Nat.eqb_neq in Hm; lia.
Qed.

Lemma mutual_partner c e e' :
  out c = Some e -> out (lab (dtarget e)) = Some e' ->
  mutual_pair e (Some e') = true ->
  lab (dtarget e') = c /\ mutual_pair e' (Some e) = true.
Proof.
  intros H He' Hm. simpl in Hm. apply andb_true_iff in Hm.
  destruct Hm as [H1 H2]. apply Nat.eqb_eq in H1, H2.
  destruct (out_in _ H) as [_ [_ [Hl _]]].
  split.
  - rewrite H1. exact Hl.
  - simpl. rewrite H1, H2, !Nat.eqb_refl. reflexivity.
Qed.

(** The cases of [next_component]. *)
Lemma nxt_none c : out c = None -> nxt c = c.
Proof. unfold nxt, next_component. fold (out c). intros ->. reflexivity. Qed.

Lemma nxt_some c e :
  out c = Some e ->
  nxt c = if mutual_pair e (out (lab (dtarget e)))
          then Nat.min c (lab (dtarget e)) else lab (dtarget e).
Proof. unfold nxt, next_component. fold (out c). intros ->. reflexivity. Qed.

Lemma nxt_root c : is_root c -> is_root (nxt c).
Proof.
  intros Hc. destruct (out c) as [e|] eqn:He.
  - rewrite (nxt_some _ He). destruct (out_in _ He) as [_ [Ht _]].
    pose proof (lab_is_root Ht) as Hr.
    destruct (mutual_pair _ _); auto.
    destruct (Nat.min_spec c (lab (dtarget e))) as [[_ ->]|[_ ->]]; auto.
  - rewrite nxt_none; auto.
Qed.

(** A step that is followed by another step goes down in the order. *)
Definition out_ltb (d c : nat) : bool :=
  match out d, out c with
  | Some ed, Some ec => dedge_ltb ed ec
  | _, _ => false
  end.

Lemma nxt_decrease c :
  nxt c <> c -> nxt (nxt c) <> nxt c -> out_ltb (nxt c) c = true.
Proof.
  intros H1 H2. destruct (out c) as [e|] eqn:He;
    [|rewrite nxt_none in H1; tauto].
  destruct (partner_out _ He) as [e' [He' Hle]].
  destruct (out_in _ He) as [Hs [Ht [Hl [Hn Hw]]]].
  rewrite (nxt_some _ He), He' in *.
  destruct (mutual_pair e (Some e')) eqn:Hm.
  - exfalso. destruct (mutual_partner _ He He' Hm) as [Hb Hm'].
    destruct (Nat.min_spec c (lab (dtarget e))) as [[Hlt Heq]|[Hlt Heq]];
      rewrite Heq in *; try tauto.
    apply H2. rewrite (nxt_some _ He'), Hb, He, Hm'. lia.
  - unfold out_ltb. rewrite He', He. eapply partner_strict; eauto.
Qed.

Definition rank (c : nat) : nat :=
  length (filter (fun d => out_ltb d c) (seq 0 n)).

Lemma out_ltb_lt d c : out_ltb d c = true -> d < n.
Proof.
  unfold out_ltb. destruct (out d) eqn:Hd; [|discriminate].
  intros _. eapply out_lt; eauto.
Qed.

Lemma rank_lt c : c < n -> rank c < n.
Proof.
  intros Hc. unfold rank.
  assert (Hall : filter (fun _ : nat => true) (seq 0 n) = seq 0 n).
  { generalize (seq 0 n). intros l; induction l; simpl; congruence. }
  apply Nat.lt_le_trans with (length (filter (fun _ : nat => true) (seq 0 n)));
    [|rewrite Hall, length_seq; lia].
  apply filter_length_lt with (x := c); auto.
  - apply in_seq; lia.
  - unfold out_ltb. destruct (out c); auto. apply key_ltb_irrefl.
Qed.

Lemma rank_decrease c :
  nxt c <> c -> nxt (nxt c) <> nxt c -> rank (nxt c) < rank c.
Proof.
  intros H1 H2. pose proof (nxt_decrease H1 H2) as Hlt.
  unfold rank. apply filter_length_lt with (x := nxt c).
  - intros y _ Hy. unfold out_ltb in *.
    destruct (out y), (out (nxt c)), (out c); try discriminate.
    eapply key_ltb_trans; eauto.
  - apply in_seq. apply out_ltb_lt in Hlt. lia.
  - unfold out_ltb. destruct (out (nxt c)); auto. apply key_ltb_irrefl.
  - exact Hlt.
Qed.

(** Following the winners from a component ends, within [n] steps, at a
    component that stays. *)
Lemma iter_nxt_fix m c :
  rank c < m -> nxt (Nat.iter m nxt c) = Nat.iter m nxt c.
Proof.
  revert c; induction m as [|m IH]; intros c Hr; [lia|].
  destruct (Nat.eq_dec (nxt c) c) as [Hc|Hc].
  - assert (Hi : forall k, Nat.iter k nxt c = c)
      by (induction k; simpl; congruence).
    rewrite Hi. exact Hc.
  - rewrite Nat.iter_succ_r.
    destruct (Nat.eq_dec (nxt (nxt c)) (nxt c)) as [Hd|Hd].
    + assert (Hi : forall k, Nat.iter k nxt (nxt c) = nxt c)
        by (induction k; simpl; congruence).
      rewrite Hi. exact Hd.
    + apply IH. pose proof (rank_decrease Hc Hd). lia.
Qed.

Definition final (c : nat) : nat := Nat.iter n nxt c.

Lemma nxt_overflow c : n <= c -> nxt c = c.
Proof. intros H. apply nxt_none, out_overflow, H. Qed.

Lemma final_fix c : nxt (final c) = final c.
Proof.
  destruct (Nat.lt_ge_cases c n) as [Hc|Hc].
  - apply iter_nxt_fix, rank_lt, Hc.
  - unfold final.
    assert (Hi : forall k, Nat.iter k nxt c = c)
      by (induction k; simpl; [|rewrite IHk; apply nxt_overflow]; auto).
    rewrite Hi. apply nxt_overflow, Hc.
Qed.

Lemma final_nxt c : final (nxt c) = final c.
Proof.
  unfold final. rewrite <- Nat.iter_succ_r. simpl. apply final_fix.
Qed.

Lemma final_root c : is_root c -> is_root (final c).
Proof.
  intros H. unfold final.
  assert (Hk : forall k, is_root (Nat.iter k nxt c))
    by (induction k as [|k IH]; simpl; auto; apply nxt_root, IH).
  apply Hk.
Qed.

Lemma final_of_fix c : nxt c = c -> final c = c.
Proof.
  intros H. unfold final.
  assert (Hk : forall k, Nat.iter k nxt c = c)
    by (induction k as [|k IH]; simpl; congruence).
  apply Hk.
Qed.

Lemma final_final c : final (final c) = final c.
Proof. apply final_of_fix, final_fix. Qed.

(** *** The labels after the round *)

Definition hooked := hook_labels labels out_edges.
Definition hop := label_of hooked.

Lemma hop_spec i :
  hop i = if i <? n then (if lab i =? i then nxt i else lab i) else i.
Proof.
  unfold hop, hooked, hook_labels. rewrite labels_length.
  destruct (Nat.ltb_spec i n) as [H|H].
  - unfold label_of at 1. rewrite nth_map_seq by exact H. reflexivity.
  - apply label_of_overflow. rewrite length_map, length_seq. exact H.
Qed.

Lemma hop_root i : i < n -> is_root (hop i).
Proof.
  intros H. rewrite hop_spec. rewrite (proj2 (Nat.ltb_lt _ _) H).
  destruct (Nat.eqb_spec (lab i) i) as [He|He].
  - apply nxt_root. split; assumption.
  - apply lab_is_root, H.
Qed.

Lemma hop_final i : i < n -> final (hop i) = final (lab i).
Proof.
  intros H. rewrite hop_spec. rewrite (proj2 (Nat.ltb_lt _ _) H).
  destruct (Nat.eqb_spec (lab i) i) as [He|He]; auto.
  rewrite final_nxt, He. reflexivity.
Qed.

Lemma hop_on_root r : is_root r -> hop r = nxt r.
Proof.
  intros [H1 H2]. rewrite hop_spec. rewrite (proj2 (Nat.ltb_lt _ _) H1).
  rewrite H2, Nat.eqb_refl. reflexivity.
Qed.

Lemma hop_iter_root m r :
  is_root r -> Nat.iter m hop r = Nat.iter m nxt r /\ is_root (Nat.iter m nxt r).
Proof.
  intros H. induction m as [|m [IH1 IH2]]; simpl; auto.
  rewrite IH1. split; [apply hop_on_root, IH2|apply nxt_root, IH2].
Qed.

Lemma iter_ge_final m c : n <= m -> Nat.iter m nxt c = final c.
Proof.
  intros H. replace m with ((m - n) + n) by lia. rewrite iter_add.
  fold (final c). generalize (m - n). intros k.
  induction k as [|k IH]; simpl; auto. rewrite IH. apply final_fix.
Qed.

Lemma hop_iter_final m i :
  i < n -> n + 1 <= m -> Nat.iter m hop i = final (lab i).
Proof.
  intros Hi Hm. destruct m as [|m]; [lia|].
  rewrite Nat.iter_succ_r.
  destruct (hop_iter_root m (hop_root Hi)) as [-> _].
  rewrite iter_ge_final by lia. apply hop_final, Hi.
Qed.

Lemma hop_iter_keeps m i :
  i < n -> Nat.iter m hop i < n /\
           final (lab (Nat.iter m hop i)) = final (lab i).
Proof.
  intros Hi. induction m as [|m [IH1 IH2]]; simpl; auto.
  pose proof (hop_root IH1) as [Hr1 Hr2]. split; auto.
  fold lab in Hr2. rewrite Hr2, hop_final by exact IH1. exact IH2.
Qed.

Lemma update_labels_length :
  length (update_labels labels out_edges) = n.
Proof.
  unfold update_labels. rewrite compress_labels_length.
  unfold hook_labels. rewrite length_map, length_seq. exact labels_length.
Qed.

(** Every leaf ends with the component its own component is merged into. *)
Lemma update_labels_spec i :
  i < n -> label_of (update_labels labels out_edges) i = final (lab i).
Proof.
  intros Hi. unfold update_labels. rewrite labels_length.
  destruct (@compress_labels_iter n hooked hop (fun _ => eq_refl))
    as [M [HM [Hit Hc]]].
  fold hooked. rewrite Hit.
  destruct Hc as [Hc|Hc].
  - apply hop_iter_final; auto.
    pose proof (Nat.pow_gt_lin_r 2 n). lia.
  - destruct (hop_iter_keeps M Hi) as [Hx Hphi].
    set (x := Nat.iter M hop i) in *.
    assert (Hk : forall k, Nat.iter (k * M) hop x = x).
    { induction k as [|k IH]; simpl; auto.
      rewrite iter_add, IH. apply Hc. }
    rewrite <- (Hk (n + 1)).
    rewrite hop_iter_final by (auto; nia). exact Hphi.
Qed.

(** *** The edges the round emits *)

Definition emitting (i : nat) : bool :=
  (lab i =? i) && emits labels out_edges i.

Definition edge_of (c : nat) : WeightedEdge :=
  match out c with
  | Some e => toWeightedEdge e
  | None => junk_edge
  end.

(** The edges of the round, in the order the indices reach the counter. *)
Definition emitted (order : list nat) : list WeightedEdge :=
  map edge_of (filter emitting order).

Lemma emits_some c e :
  out c = Some e ->
  emits labels out_edges c =
  (c <? lab (dtarget e)) || negb (mutual_pair e (out (lab (dtarget e)))).
Proof. unfold emits. fold (out c). intros ->. reflexivity. Qed.

Lemma emits_none c : out c = None -> emits labels out_edges c = false.
Proof. unfold emits. fold (out c). intros ->. reflexivity. Qed.

Lemma emitting_out c :
  emitting c = true -> exists e, out c = Some e /\ is_root c.
Proof.
  unfold emitting. intros H. apply andb_true_iff in H. destruct H as [_ H].
  destruct (out c) as [e|] eqn:He.
  - exists e. split; auto. eapply out_root; eauto.
  - rewrite emits_none in H by exact He. discriminate.
Qed.

Lemma emit_one_spec mode s i :
  emit_one mode labels out_edges s i =
  if emitting i then
    mkEdgeStore (view_set (es_count s) (edge_of i) (es_edges s))
      (match mode with
       | HDBSCAN => view_set i (es_count s) (es_mapping s)
       | MST => es_mapping s
       end)
      (S (es_count s))
  else s.
Proof.
  unfold emit_one. fold (lab i). fold (emitting i).
  destruct (emitting i) eqn:He; auto.
  destruct (emitting_out _ He) as [e [Ho _]].
  unfold edge_of. fold (out i). rewrite Ho. reflexivity.
Qed.

Lemma emit_fold mode order : forall s,
  let s' := update_unidirectional_edges mode order labels out_edges s in
  es_count s' = es_count s + length (emitted order) /\
  length (es_edges s') = length (es_edges s) /\
  (es_count s + length (emitted order) <= length (es_edges s) ->
   firstn (es_count s') (es_edges s') =
   firstn (es_count s) (es_edges s) ++ emitted order).
Proof.
  unfold update_unidirectional_edges, emitted.
  induction order as [|i order IH]; intros s; simpl.
  - repeat split; auto. intros _. rewrite app_nil_r. reflexivity.
  - rewrite emit_one_spec. destruct (emitting i) eqn:He; [|apply IH].
    specialize (IH (mkEdgeStore (view_set (es_count s) (edge_of i) (es_edges s))
      (match mode with
       | HDBSCAN => view_set i (es_count s) (es_mapping s)
       | MST => es_mapping s
       end)
      (S (es_count s)))).
    cbn [es_count es_edges es_mapping length map] in *.
    rewrite view_set_length in IH.
    destruct IH as [IH1 [IH2 IH3]]. repeat split; try lia.
    intros Hb. rewrite IH3 by lia.
    rewrite firstn_view_set_end by lia. rewrite <- app_assoc. reflexivity.
Qed.

Lemma emitted_in order x :
  In x (emitted order) ->
  exists c e, In c order /\ out c = Some e /\
              emits labels out_edges c = true /\ x = toWeightedEdge e.
Proof.
  unfold emitted. rewrite in_map_iff. intros [c [Hx Hc]].
  apply filter_In in Hc. destruct Hc as [Hc He].
  destruct (emitting_out _ He) as [e [Ho _]].
  exists c, e. repeat split; auto.
  - unfold emitting in He. apply andb_true_iff in He. tauto.
  - unfold edge_of in Hx. rewrite Ho in Hx. auto.
Qed.

Lemma edge_of_inj c1 c2 :
  emitting c1 = true -> emitting c2 = true -> edge_of c1 = edge_of c2 ->
  c1 = c2.
Proof.
  intros H1 H2 He.
  destruct (emitting_out _ H1) as [e1 [Ho1 _]].
  destruct (emitting_out _ H2) as [e2 [Ho2 _]].
  unfold edge_of in He. rewrite Ho1, Ho2 in He.
  destruct (out_in _ Ho1) as [_ [_ [Hl1 _]]].
  destruct (out_in _ Ho2) as [_ [_ [Hl2 _]]].
  inversion He. congruence.
Qed.

Lemma emitted_NoDup order : NoDup order -> NoDup (emitted order).
Proof.
  intros H. unfold emitted. apply NoDup_map_NoDup_ForallPairs.
  - intros a b Ha Hb Hab. apply filter_In in Ha, Hb.
    apply edge_of_inj; tauto.
  - apply NoDup_filter, H.
Qed.


(** *** The graph after the round *)

Variable E : list WeightedEdge.
Hypothesis E_range : forall e, In e E -> source e < n /\ target e < n.
Hypothesis E_classes :
  forall i j, i < n -> j < n -> (lab i = lab j <-> connected E i j).
Hypothesis E_forest : forest E.

Lemma E_same_label e : In e E -> lab (source e) = lab (target e).
Proof.
  intros H. destruct (E_range _ H). apply E_classes; auto.
  apply conn_edge, H.
Qed.

(** The winner of a component other than [c] whose key is not above that of
    the winner of [c] stays clear of [c], unless both emit the same edge. *)
Lemma winner_clear c e c2 e2 :
  out c = Some e -> out c2 = Some e2 ->
  emits labels out_edges c = true -> emits labels out_edges c2 = true ->
  toWeightedEdge e2 <> toWeightedEdge e ->
  wedge_ltb (toWeightedEdge e) (toWeightedEdge e2) = false ->
  lab (dsource e2) <> c /\ lab (dtarget e2) <> c.
Proof.
  intros Ho Ho2 Hem Hem2 Hne Hle.
  destruct (out_in _ Ho) as [Hs [Ht [Hl [Hn Hw]]]].
  destruct (out_in _ Ho2) as [Hs2 [Ht2 [Hl2 [Hn2 Hw2]]]].
  assert (Hc : c2 <> c) by (intros ->; rewrite Ho in Ho2; congruence).
  split; [congruence|]. intros Hin.
  pose proof (@out_min c e (dtarget e2) (dsource e2) Ho Ht2 Hs2 Hin) as Hm.
  rewrite Hl2 in Hm. specialize (Hm Hc).
  rewrite (metric_sym (dtarget e2) (dsource e2)), <- Hw2 in Hm.
  assert (Hkey : dweight e2 = dweight e /\
                 Nat.min (dsource e2) (dtarget e2) =
                 Nat.min (dsource e) (dtarget e) /\
                 Nat.max (dsource e2) (dtarget e2) =
                 Nat.max (dsource e) (dtarget e)).
  { apply key_ltb_total.
    - pose proof (key_ltb_swap (dweight e2) (dtarget e2) (dsource e2)
                    (dweight e) (dsource e) (dtarget e)) as [Hsw _].
      unfold dedge_ltb in Hm. simpl in Hm. rewrite <- Hsw. exact Hm.
    - exact Hle. }
  destruct Hkey as [_ [Hmin Hmax]].
  assert (Hsrc : dsource e2 <> dsource e) by congruence.
  assert (Hrev : dsource e2 = dtarget e /\ dtarget e2 = dsource e) by lia.
  destruct Hrev as [Hr1 Hr2].
  rewrite (emits_some _ Ho) in Hem. rewrite (emits_some _ Ho2) in Hem2.
  rewrite <- Hr1, Hl2, Ho2 in Hem. rewrite Hr2, Hl, Ho in Hem2.
  simpl in Hem, Hem2. rewrite Hr1, Hr2, !Nat.eqb_refl in *.
  simpl in Hem, Hem2. rewrite orb_false_r in *.
  apply Nat.ltb_lt in Hem, Hem2. lia.
Qed.

Definition desc_ltb (x y : WeightedEdge) : bool := wedge_ltb y x.

Lemma forest_round L :
  (forall x, In x L -> exists c e, out c = Some e /\
       emits labels out_edges c = true /\ x = toWeightedEdge e) ->
  NoDup L -> ordered desc_ltb L -> forest (L ++ E).
Proof.
  unfold ordered, desc_ltb.
  induction L as [|x L IH]; intros Hin Hnd Hs; simpl; auto.
  inversion Hnd as [|? ? Hx Hnd']; subst.
  inversion Hs as [|? ? Hs' Hall]; subst.
  rewrite Forall_forall in Hall.
  constructor.
  - apply IH; auto. intros y Hy. apply Hin. right; exact Hy.
  - destruct (Hin x (or_introl eq_refl)) as [c [e [Ho [Hem ->]]]].
    destruct (out_in _ Ho) as [Hs1 [Ht1 [Hl1 [Hn1 Hw1]]]].
    intros Hc.
    apply (connected_closed (fun a => lab a = c)) in Hc.
    + simpl in Hc. tauto.
    + intros y Hy. apply in_app_or in Hy. destruct Hy as [Hy|Hy].
      * destruct (Hin y (or_intror Hy)) as [c2 [e2 [Ho2 [Hem2 ->]]]].
        assert (Hne : toWeightedEdge e2 <> toWeightedEdge e)
          by (intros Heq; apply Hx; rewrite <- Heq; exact Hy).
        destruct (winner_clear _ _ Ho Ho2 Hem Hem2 Hne (Hall _ Hy)).
        simpl. tauto.
      * rewrite (E_same_label _ Hy). tauto.
Qed.

Lemma forest_emitted order :
  NoDup order -> forest (E ++ emitted order).
Proof.
  intros Hnd.
  apply forest_perm with (sort_by desc_ltb (emitted order) ++ E).
  - rewrite Permutation_app_comm. apply Permutation_app_head.
    apply sort_by_perm.
  - apply forest_round.
    + intros x Hx.
      apply (Permutation_in _ (sort_by_perm desc_ltb (emitted order))) in Hx.
      destruct (emitted_in _ _ Hx) as [c [e H]]. exists c, e. tauto.
    + apply (Permutation_NoDup (Permutation_sym (sort_by_perm _ _))).
      apply emitted_NoDup, Hnd.
    + apply sort_by_ordered; unfold desc_ltb.
      * intros a b. apply wedge_ltb_asym.
      * intros a b c H1 H2. eapply wedge_ltb_le_trans; eauto.
Qed.

Variable order : list nat.
Hypothesis order_perm : Permutation order (seq 0 n).

Lemma order_in c : c < n -> In c order.
Proof.
  intros H. apply (Permutation_in _ (Permutation_sym order_perm)).
  apply in_seq. lia.
Qed.

Lemma order_NoDup : NoDup order.
Proof.
  apply (Permutation_NoDup (Permutation_sym order_perm)), seq_NoDup.
Qed.

(** The entries of [edges] after the round. *)
Definition edges_after : list WeightedEdge := E ++ emitted order.

Lemma same_label_connected i j :
  i < n -> j < n -> lab i = lab j -> connected edges_after i j.
Proof.
  intros Hi Hj H. apply connected_incl with E.
  - intros x Hx. apply in_or_app. left; exact Hx.
  - apply E_classes; auto.
Qed.

Lemma emitted_edge_connected c e :
  out c = Some e -> emits labels out_edges c = true ->
  connected edges_after (dsource e) (dtarget e).
Proof.
  intros Ho Hem. pose proof (out_root _ Ho) as [Hc Hr].
  change (dsource e) with (source (toWeightedEdge e)).
  change (dtarget e) with (target (toWeightedEdge e)).
  apply conn_edge. apply in_or_app. right.
  unfold emitted. apply in_map_iff. exists c. split.
  - unfold edge_of. rewrite Ho. reflexivity.
  - apply filter_In. split; [apply order_in, Hc|].
    unfold emitting. rewrite Hr, Nat.eqb_refl, Hem. reflexivity.
Qed.

Lemma root_step c : is_root c -> connected edges_after c (nxt c).
Proof.
  intros [Hc Hr]. destruct (out c) as [e|] eqn:Ho;
    [|rewrite nxt_none by exact Ho; apply conn_refl].
  destruct (out_in _ Ho) as [Hs [Ht [Hl [Hn Hw]]]].
  destruct (partner_out _ Ho) as [e' [Ho' _]].
  destruct (out_in _ Ho') as [Hs' [Ht' [Hl' [Hn' Hw']]]].
  pose proof (lab_is_root Ht) as [Hc' Hr'].
  rewrite (nxt_some _ Ho), Ho'.
  destruct (mutual_pair e (Some e')) eqn:Hm.
  - destruct (mutual_partner _ Ho Ho' Hm) as [Hb Hm'].
    destruct (Nat.min_spec c (lab (dtarget e))) as [[Hlt ->]|[Hlt ->]];
      [apply conn_refl|].
    assert (Hem : emits labels out_edges (lab (dtarget e)) = true).
    { rewrite (emits_some _ Ho'), Hb. apply orb_true_iff. left.
      apply Nat.ltb_lt. lia. }
    apply conn_trans with (dtarget e');
      [apply same_label_connected; auto; congruence|].
    apply conn_trans with (dsource e').
    + apply conn_sym. eapply emitted_edge_connected; eauto.
    + apply same_label_connected; auto. congruence.
  - assert (Hem : emits labels out_edges c = true).
    { rewrite (emits_some _ Ho), Ho', Hm. apply orb_true_r. }
    apply conn_trans with (dsource e);
      [apply same_label_connected; auto; congruence|].
    apply conn_trans with (dtarget e).
    + eapply emitted_edge_connected; eauto.
    + apply same_label_connected; auto.
Qed.

Lemma leaf_to_final i : i < n -> connected edges_after i (final (lab i)).
Proof.
  intros Hi. pose proof (lab_is_root Hi) as Hr.
  apply conn_trans with (lab i).
  - destruct Hr as [Hr1 Hr2]. apply same_label_connected; auto.
  - unfold final.
    assert (Hk : forall k, connected edges_after (lab i) (Nat.iter k nxt (lab i))
                           /\ is_root (Nat.iter k nxt (lab i))).
    { induction k as [|k [IH1 IH2]]; simpl.
      - split; [apply conn_refl|exact Hr].
      - split; [|apply nxt_root, IH2].
        eapply conn_trans; [exact IH1|apply root_step, IH2]. }
    apply Hk.
Qed.

Lemma connected_final a b :
  connected edges_after a b -> final (lab a) = final (lab b).
Proof.
  induction 1 as [a|x Hx|a b H IH|a b c H1 IH1 H2 IH2]; try congruence.
  apply in_app_or in Hx. destruct Hx as [Hx|Hx].
  - rewrite (E_same_label _ Hx). reflexivity.
  - destruct (emitted_in _ _ Hx) as [c [e [_ [Ho [Hem ->]]]]]. simpl.
    destruct (out_in _ Ho) as [Hs [Ht [Hl [Hn Hw]]]].
    destruct (partner_out _ Ho) as [e' [Ho' _]].
    rewrite Hl. rewrite <- (final_nxt (lab (dtarget e))), <- (final_nxt c).
    rewrite (nxt_some _ Ho), Ho'.
    destruct (mutual_pair e (Some e')) eqn:Hm.
    + destruct (mutual_partner _ Ho Ho' Hm) as [Hb Hm'].
      rewrite (nxt_some _ Ho'), Hb, Ho, Hm'.
      rewrite (Nat.min_comm (lab (dtarget e)) c). reflexivity.
    + rewrite final_nxt. reflexivity.
Qed.

Lemma classes_after i j :
  i < n -> j < n ->
  (final (lab i) = final (lab j) <-> connected edges_after i j).
Proof.
  intros Hi Hj. split; [|apply connected_final].
  intros H. apply conn_trans with (final (lab i)); [apply leaf_to_final, Hi|].
  rewrite H. apply conn_sym, leaf_to_final, Hj.
Qed.

Lemma range_after e : In e edges_after -> source e < n /\ target e < n.
Proof.
  intros H. apply in_app_or in H. destruct H as [H|H]; auto.
  destruct (emitted_in _ _ H) as [c [d [_ [Ho [_ ->]]]]]. simpl.
  destruct (out_in _ Ho) as [Hs [Ht _]]. auto.
Qed.

Lemma forest_after : forest edges_after.
Proof. apply forest_emitted, order_NoDup. Qed.

(** *** Counting the components *)

Definition roots_of (L : list nat) : list nat :=
  filter (fun c => label_of L c =? c) (seq 0 n).

Definition staying (c : nat) : bool := (lab c =? c) && (nxt c =? c).
Definition leaving (c : nat) : bool := (lab c =? c) && negb (nxt c =? c).

Lemma roots_after :
  roots_of (update_labels labels out_edges) = filter staying (seq 0 n).
Proof.
  unfold roots_of. apply filter_ext_in. intros c Hc. apply in_seq in Hc.
  rewrite update_labels_spec by lia. unfold staying.
  destruct (Nat.eqb_spec (final (lab c)) c) as [H|H].
  - assert (Hr : is_root c)
      by (rewrite <- H; apply final_root, lab_is_root; lia).
    destruct Hr as [_ Hr]. rewrite Hr in *. rewrite Nat.eqb_refl.
    rewrite <- H at 1. rewrite final_fix, H, Nat.eqb_refl. reflexivity.
  - destruct (Nat.eqb_spec (lab c) c) as [Hl|Hl]; auto.
    destruct (Nat.eqb_spec (nxt c) c) as [Hn|Hn]; auto.
    exfalso. apply H. rewrite Hl. apply final_of_fix, Hn.
Qed.

(** The component on the other side of a mutual pair, or the component
    itself. *)
Definition mate (c : nat) : nat :=
  match out c with
  | Some e => if mutual_pair e (out (lab (dtarget e)))
              then lab (dtarget e) else c
  | None => c
  end.

Lemma mate_mate c : mate (mate c) = c.
Proof.
  unfold mate at 2. destruct (out c) as [e|] eqn:Ho.
  - destruct (partner_out _ Ho) as [e' [Ho' _]]. rewrite Ho'.
    destruct (mutual_pair e (Some e')) eqn:Hm.
    + destruct (mutual_partner _ Ho Ho' Hm) as [Hb Hm'].
      unfold mate. rewrite Ho', Hb, Ho, Hm'. reflexivity.
    + unfold mate. rewrite Ho, Ho', Hm. reflexivity.
  - unfold mate. rewrite Ho. reflexivity.
Qed.

Lemma mate_inj x y : mate x = mate y -> x = y.
Proof. intros H. rewrite <- (mate_mate x), H. apply mate_mate. Qed.

Lemma in_filter_seq (p : nat -> bool) c :
  In c (filter p (seq 0 n)) <-> c < n /\ p c = true.
Proof. rewrite filter_In, in_seq. intuition lia. Qed.

Lemma mate_cases c e :
  out c = Some e ->
  let c' := lab (dtarget e) in
  is_root c /\ is_root c' /\ c' <> c /\
  ((mate c = c /\ nxt c = c' /\ emits labels out_edges c = true) \/
   (mate c = c' /\ mate c' = c /\
    nxt c = Nat.min c c' /\ nxt c' = Nat.min c c' /\
    emits labels out_edges c = (c <? c') /\
    emits labels out_edges c' = (c' <? c))).
Proof.
  intros Ho. cbv zeta. destruct (out_in _ Ho) as [Hs [Ht [Hl [Hn Hw]]]].
  destruct (partner_out _ Ho) as [e' [Ho' _]].
  repeat split; auto; try apply (out_root _ Ho); try apply (lab_is_root Ht).
  destruct (mutual_pair e (Some e')) eqn:Hm.
  - right. destruct (mutual_partner _ Ho Ho' Hm) as [Hb Hm'].
    assert (Hmate : mate c = lab (dtarget e))
      by (unfold mate; rewrite Ho; rewrite Ho', Hm; reflexivity).
    repeat split; auto.
    + rewrite <- Hmate. apply mate_mate.
    + rewrite (nxt_some _ Ho). rewrite Ho', Hm. reflexivity.
    + rewrite (nxt_some _ Ho'), Hb, Ho, Hm'. apply Nat.min_comm.
    + rewrite (emits_some _ Ho). rewrite Ho', Hm. apply orb_false_r.
    + rewrite (emits_some _ Ho'), Hb, Ho, Hm'. apply orb_false_r.
  - left. repeat split.
    + unfold mate. rewrite Ho. rewrite Ho', Hm. reflexivity.
    + rewrite (nxt_some _ Ho). rewrite Ho', Hm. reflexivity.
    + rewrite (emits_some _ Ho). rewrite Ho', Hm. apply orb_true_r.
Qed.

Lemma emitting_mate_leaving c : emitting c = true -> leaving (mate c) = true.
Proof.
  intros H. destruct (emitting_out _ H) as [e [Ho _]].
  unfold emitting in H. apply andb_true_iff in H. destruct H as [_ Hem].
  destruct (mate_cases _ Ho) as [[_ Hr] [[_ Hr'] [Hne Hc]]].
  unfold leaving.
  destruct Hc as [[-> [Hn _]]|[-> [_ [_ [Hn [He _]]]]]].
  - rewrite Hr, Nat.eqb_refl, Hn. simpl.
    apply negb_true_iff, Nat.eqb_neq. exact Hne.
  - rewrite Hr', Nat.eqb_refl, Hn. simpl.
    rewrite He in Hem. apply Nat.ltb_lt in Hem.
    apply negb_true_iff, Nat.eqb_neq. lia.
Qed.

Lemma leaving_out c : leaving c = true -> exists e, out c = Some e.
Proof.
  unfold leaving. intros H. apply andb_true_iff in H. destruct H as [_ H].
  destruct (out c) as [e|] eqn:Ho; eauto.
  rewrite (nxt_none _ Ho), Nat.eqb_refl in H. discriminate.
Qed.

Lemma leaving_mate_emitting c : leaving c = true -> emitting (mate c) = true.
Proof.
  intros H. destruct (leaving_out _ H) as [e Ho].
  unfold leaving in H. apply andb_true_iff in H. destruct H as [_ Hl].
  apply negb_true_iff, Nat.eqb_neq in Hl.
  destruct (mate_cases _ Ho) as [[_ Hr] [[_ Hr'] [Hne Hc]]].
  unfold emitting.
  destruct Hc as [[-> [_ He]]|[-> [_ [Hn [_ [_ He]]]]]].
  - rewrite Hr, Nat.eqb_refl, He. reflexivity.
  - rewrite Hr', Nat.eqb_refl, He. simpl. apply Nat.ltb_lt. lia.
Qed.

Lemma mate_lt c : c < n -> mate c < n.
Proof.
  intros H. unfold mate. destruct (out c) as [e|] eqn:Ho; auto.
  destruct (mutual_pair _ _); auto.
  destruct (out_in _ Ho) as [_ [Ht _]]. apply (lab_is_root Ht).
Qed.

Lemma emitting_leaving_count :
  length (filter emitting (seq 0 n)) = length (filter leaving (seq 0 n)).
Proof.
  apply Nat.le_antisymm.
  - apply injection_length with (phi := mate).
    + apply NoDup_filter, seq_NoDup.
    + intros x Hx. apply in_filter_seq in Hx. apply in_filter_seq.
      split; [apply mate_lt; tauto|apply emitting_mate_leaving; tauto].
    + intros x y _ _. apply mate_inj.
  - apply injection_length with (phi := mate).
    + apply NoDup_filter, seq_NoDup.
    + intros x Hx. apply in_filter_seq in Hx. apply in_filter_seq.
      split; [apply mate_lt; tauto|apply leaving_mate_emitting; tauto].
    + intros x y _ _. apply mate_inj.
Qed.

Lemma emitted_count :
  length (emitted order) = length (filter leaving (seq 0 n)).
Proof.
  unfold emitted. rewrite length_map, <- emitting_leaving_count.
  apply Permutation_length, filter_perm, order_perm.
Qed.

(** Every emitted edge removes exactly one component. *)
Lemma roots_count :
  length (roots_of labels) =
  length (roots_of (update_labels labels out_edges)) + length (emitted order).
Proof.
  rewrite roots_after, emitted_count. unfold roots_of.
  apply (filter_split_length (fun c => lab c =? c) (fun c => nxt c =? c)).
Qed.

(** When there is more than one component, at most half of them stay. *)
Lemma roots_halved :
  2 <= length (roots_of labels) ->
  2 * length (roots_of (update_labels labels out_edges)) <=
  length (roots_of labels).
Proof.
  intros H2.
  assert (Hall : forall c, is_root c -> exists e, out c = Some e).
  { intros c [Hc Hr].
    assert (Hex : exists d, In d (roots_of labels) /\ d <> c).
    { destruct (roots_of labels) as [|a [|b l]] eqn:Hl; simpl in H2; try lia.
      assert (Hnd : NoDup (a :: b :: l))
        by (rewrite <- Hl; apply NoDup_filter, seq_NoDup).
      destruct (Nat.eq_dec a c) as [->|Ha].
      - exists b. split; [simpl; auto|].
        inversion Hnd as [|? ? Hn _]; subst. simpl in Hn. intuition.
      - exists a. simpl; auto. }
    destruct Hex as [d [Hd Hne]]. apply in_filter_seq in Hd.
    destruct Hd as [Hd Hdr]. apply Nat.eqb_eq in Hdr.
    apply (@out_some c c d); auto. unfold lab in *. congruence. }
  assert (Hle : length (filter staying (seq 0 n)) <=
                length (filter leaving (seq 0 n))).
  { apply injection_length with (phi := mate).
    - apply NoDup_filter, seq_NoDup.
    - intros c Hc. apply in_filter_seq in Hc. destruct Hc as [Hc Hs].
      unfold staying in Hs. apply andb_true_iff in Hs.
      destruct Hs as [Hr Hn]. apply Nat.eqb_eq in Hr, Hn.
      destruct (Hall c (conj Hc Hr)) as [e Ho].
      destruct (mate_cases _ Ho) as [_ [[Hc' Hr'] [Hne Hcase]]].
      apply in_filter_seq. unfold leaving.
      destruct Hcase as [[_ [Hn' _]]|[-> [_ [Hn1 [Hn2 _]]]]];
        [congruence|].
      split; auto. rewrite Hr', Nat.eqb_refl, Hn2. simpl.
      apply negb_true_iff, Nat.eqb_neq. lia.
    - intros x y _ _. apply mate_inj. }
  rewrite roots_after.
  pose proof (filter_split_length (fun c => lab c =? c)
                (fun c => nxt c =? c) (seq 0 n)) as Hs.
  fold staying in Hs. unfold roots_of.
  change (fun c => label_of labels c =? c) with (fun c => lab c =? c).
  unfold staying, leaving in *. lia.
Qed.

(** A component always remains. *)
Lemma roots_after_nonempty :
  0 < n -> 0 < length (roots_of (update_labels labels out_edges)).
Proof.
  intros Hn. rewrite roots_after.
  assert (Hin : In (final (lab 0)) (filter staying (seq 0 n))).
  { pose proof (final_root (lab_is_root Hn)) as [Hc Hr].
    apply in_filter_seq. split; auto.
    unfold staying. rewrite Hr, final_fix, !Nat.eqb_refl. reflexivity. }
  destruct (filter staying (seq 0 n)); [destruct Hin|simpl; lia].
Qed.
End Round.

(** ** The loop *)

Section Loop.
Variable n : nat.
Variable metric : nat -> nat -> Z.
Variable mode : BoruvkaMode.
Variable use_lower_bounds : bool.
Variable schedule : nat -> list nat.
Variable updateSidedParents :
  list nat -> list WeightedEdge -> list nat -> list Z -> nat -> nat -> list Z.

Hypothesis metric_sym : forall i j, metric i j = metric j i.
Hypothesis metric_nonneg : forall i j, (0 <= metric i j)%Z.
Hypothesis schedule_perm : forall t, Permutation (schedule t) (seq 0 n).
Hypothesis n_pos : 0 < n.

Definition round : State -> State :=
  boruvka_round n metric mode use_lower_bounds schedule updateSidedParents.

(** The entries of [edges] written so far. *)
Definition emitted_so_far (s : State) : list WeightedEdge :=
  firstn (st_num_edges s) (st_edges s).

(** The number of distinct labels. *)
Definition components (s : State) : nat :=
  length (roots_of n (st_labels s)).

Record Inv (s : State) : Prop := mkInv
  { inv_length : length (st_labels s) = n;
    inv_roots : forall i, i < n ->
      label_of (st_labels s) i < n /\
      label_of (st_labels s) (label_of (st_labels s) i) =
      label_of (st_labels s) i;
    inv_range : forall e, In e (emitted_so_far s) ->
      source e < n /\ target e < n;
    inv_classes : forall i j, i < n -> j < n ->
      (lab (st_labels s) i = lab (st_labels s) j <->
       connected (emitted_so_far s) i j);
    inv_forest : forest (emitted_so_far s);
    inv_count : st_num_edges s + components s = n;
    inv_edges_length : length (st_edges s) = n - 1;
    inv_bounds : forall i, i < n ->
      bound_ok n metric (st_labels s) (st_lower_bounds s) i;
    inv_num_components :
      st_num_components s = (Z.of_nat n - Z.of_nat (st_num_edges s))%Z }.

Definition round_order (s : State) : list nat := schedule (S (st_iterations s)).

Definition round_emitted (s : State) : list WeightedEdge :=
  emitted n metric (st_labels s) (round_order s).

Lemma round_labels_raw s :
  st_labels (round s) =
  update_labels (st_labels s)
    (found n metric (st_labels s) (st_lower_bounds s)).
Proof. reflexivity. Qed.

Lemma round_store_raw s :
  let store :=
    update_unidirectional_edges mode (round_order s) (st_labels s)
      (found n metric (st_labels s) (st_lower_bounds s))
      (mkEdgeStore (st_edges s) (st_edges_mapping s) (st_num_edges s)) in
  st_edges (round s) = es_edges store /\
  st_num_edges (round s) = es_count store.
Proof. split; reflexivity. Qed.


Lemma round_num_components s :
  st_num_components (round s) =
  (Z.of_nat n - Z.of_nat (st_num_edges (round s)))%Z.
Proof. reflexivity. Qed.

Lemma round_lower_bounds s :
  st_lower_bounds (round s) =
  if use_lower_bounds
  then updateLowerBounds (st_labels s)
         (found n metric (st_labels s) (st_lower_bounds s))
         (st_lower_bounds s)
  else st_lower_bounds s.
Proof. reflexivity. Qed.

Lemma found_cache s :
  Inv s ->
  found n metric (st_labels s) (st_lower_bounds s) =
  out_edges n metric (st_labels s).
Proof.
  intros H. unfold found, out_edges, found.
  rewrite FCNN_cache; auto. apply (inv_bounds H).
Qed.

Lemma round_labels s :
  Inv s ->
  st_labels (round s) =
  update_labels (st_labels s) (out_edges n metric (st_labels s)).
Proof. intros H. rewrite round_labels_raw, found_cache; auto. Qed.

Lemma round_components s :
  Inv s -> components s = components (round s) + length (round_emitted s).
Proof.
  intros H. unfold components. rewrite round_labels by exact H.
  apply roots_count; auto; try apply H. apply schedule_perm.
Qed.

Lemma round_components_pos s : Inv s -> 0 < components (round s).
Proof.
  intros H. unfold components. rewrite round_labels by exact H.
  apply roots_after_nonempty; auto; apply H.
Qed.

Lemma round_store s :
  Inv s ->
  st_num_edges (round s) = st_num_edges s + length (round_emitted s) /\
  length (st_edges (round s)) = n - 1 /\
  emitted_so_far (round s) = emitted_so_far s ++ round_emitted s.
Proof.
  intros H. destruct (round_store_raw s) as [He Hc].
  rewrite found_cache in He, Hc by exact H.
  pose proof (@emit_fold n metric (st_labels s) (inv_length H) (inv_roots H)
                mode (round_order s)
                (mkEdgeStore (st_edges s) (st_edges_mapping s)
                             (st_num_edges s))) as Hf.
  cbv zeta in Hf. cbn [es_count es_edges] in Hf.
  destruct Hf as [H1 [H2 H3]].
  unfold emitted_so_far, round_emitted. rewrite He, Hc.
  repeat split; auto.
  - rewrite H2. apply (inv_edges_length H).
  - apply H3. rewrite (inv_edges_length H).
    pose proof (round_components H). pose proof (round_components_pos H).
    pose proof (inv_count H). unfold round_emitted in *. lia.
Qed.

Lemma updateLowerBounds_nth labels out lb i :
  nth i (updateLowerBounds labels out lb) 0%Z =
  if i <? length lb
  then match nth (label_of labels i) out None with
       | Some e => dweight e
       | None => nth i lb 0%Z
       end
  else 0%Z.
Proof.
  unfold updateLowerBounds. destruct (Nat.ltb_spec i (length lb)) as [H|H].
  - rewrite nth_map_seq by exact H. reflexivity.
  - apply nth_overflow. rewrite length_map, length_seq. exact H.
Qed.

Lemma round_inv s : Inv s -> Inv (round s).
Proof.
  intros H.
  pose proof (inv_length H) as Hlen. pose proof (inv_roots H) as Hroots.
  destruct (round_store H) as [Hcnt [Hel Hem]].
  assert (Hlab : forall i, i < n ->
            label_of (st_labels (round s)) i =
            final n metric (st_labels s) (lab (st_labels s) i)).
  { intros i Hi. rewrite round_labels by exact H.
    apply update_labels_spec; auto. }
  constructor.
  - rewrite round_labels by exact H. apply update_labels_length, Hlen.
  - intros i Hi. rewrite (Hlab i Hi).
    pose proof (@final_root n metric _ Hroots _ (@lab_is_root n _ Hroots _ Hi))
      as [Hc Hr].
    split; auto. rewrite (Hlab _ Hc). fold (lab (st_labels s)) in Hr.
    rewrite Hr. apply final_final; auto.
  - rewrite Hem. apply range_after; auto. apply (inv_range H).
  - intros i j Hi Hj. unfold lab. rewrite (Hlab i Hi), (Hlab j Hj), Hem.
    apply classes_after; auto; try apply H. apply schedule_perm.
  - rewrite Hem. apply forest_after; auto; try apply H. apply schedule_perm.
  - pose proof (round_components H). pose proof (inv_count H). lia.
  - exact Hel.
  - intros i Hi j Hj Hne.
    assert (Hold : label_of (st_labels s) j <> label_of (st_labels s) i).
    { intros Heq. apply Hne. rewrite (Hlab i Hi), (Hlab j Hj).
      unfold lab. rewrite Heq. reflexivity. }
    pose proof (inv_bounds H Hi Hj Hold) as Hb.
    rewrite round_lower_bounds. destruct use_lower_bounds; auto.
    rewrite updateLowerBounds_nth.
    destruct (_ <? _); [|apply metric_nonneg].
    rewrite found_cache by exact H.
    destruct (nth _ _ None) as [e|] eqn:Ho; auto.
    pose proof (@out_min n metric (st_labels s) _ e i j Ho Hi Hj eq_refl) as Hm.
    unfold lab in Hm. specialize (Hm Hold). key_solve.
  - apply round_num_components.
Qed.

(** The state the loop starts from. *)
Lemma label_of_seq i : i < n -> label_of (seq 0 n) i = i.
Proof. intros H. unfold label_of. rewrite seq_nth by exact H. reflexivity. Qed.

Lemma connected_nil a b : connected [] a b -> a = b.
Proof. induction 1 as [|e He| |]; try congruence. destruct He. Qed.

Lemma roots_of_seq : roots_of n (seq 0 n) = seq 0 n.
Proof.
  unfold roots_of. apply forallb_filter_id. apply forallb_forall.
  intros c Hc. apply in_seq in Hc. rewrite label_of_seq by lia.
  apply Nat.eqb_refl.
Qed.

Lemma init_inv obj log :
  length (edges obj) = n - 1 ->
  Inv (boruvka_init n mode use_lower_bounds obj log).
Proof.
  intros Hl. constructor; simpl; auto.
  - apply length_seq.
  - intros i Hi. rewrite !label_of_seq; auto.
  - tauto.
  - intros i j Hi Hj. unfold lab. rewrite !label_of_seq by assumption.
    split; [intros ->; apply conn_refl|apply connected_nil].
  - constructor.
  - unfold components. simpl. rewrite roots_of_seq. apply length_seq.
  - intros i Hi j Hj _. destruct use_lower_bounds.
    + rewrite nth_repeat. apply metric_nonneg.
    + destruct i; apply metric_nonneg.
  - lia.
Qed.

Lemma iter_round_inv T s : Inv s -> Inv (Nat.iter T round s).
Proof. intros H. induction T; simpl; auto. apply round_inv, IHT. Qed.

Lemma num_components_count s :
  Inv s -> st_num_components s = Z.of_nat (components s).
Proof.
  intros H. rewrite (inv_num_components H). pose proof (inv_count H). lia.
Qed.

Lemma round_halves s :
  Inv s -> 2 <= components s -> 2 * components (round s) <= components s.
Proof.
  intros H H2. unfold components in *. rewrite round_labels by exact H.
  apply roots_halved; auto; apply H.
Qed.


Lemma boruvka_loop_S fuel s :
  boruvka_loop n metric mode use_lower_bounds schedule updateSidedParents
    (S fuel) s =
  if (1 <? st_num_components (round s))%Z
  then boruvka_loop n metric mode use_lower_bounds schedule updateSidedParents
         fuel (round s)
  else Some (round s).
Proof. reflexivity. Qed.

(** What the loop returns: the state after the first round that leaves at
    most one component. *)
Lemma boruvka_loop_spec fuel : forall s s',
  boruvka_loop n metric mode use_lower_bounds schedule updateSidedParents
    fuel s = Some s' <->
  exists T, 1 <= T <= fuel /\ s' = Nat.iter T round s /\
            (st_num_components s' <= 1)%Z /\
            forall t, 1 <= t < T ->
                      (1 < st_num_components (Nat.iter t round s))%Z.
Proof.
  induction fuel as [|f IH]; intros s s'.
  - simpl. split; [discriminate|]. intros [T [HT _]]. lia.
  - rewrite boruvka_loop_S.
    destruct (Z.ltb_spec 1 (st_num_components (round s))) as [Hgt|Hle].
    + rewrite IH. split.
      * intros [T [HT [-> [Hnc Hall]]]]. exists (S T).
        rewrite Nat.iter_succ_r. repeat split; auto; try lia.
        intros t Ht. destruct t as [|t]; [lia|].
        rewrite Nat.iter_succ_r. destruct t as [|t]; [exact Hgt|].
        apply Hall. lia.
      * intros [T [HT [-> [Hnc Hall]]]]. destruct T as [|T]; [lia|].
        rewrite Nat.iter_succ_r in *.
        destruct T as [|T];
          [change (Nat.iter 0 round (round s)) with (round s) in Hnc; lia|].
        exists (S T). repeat split; auto; try lia.
        intros t Ht. specialize (Hall (S t)).
        rewrite Nat.iter_succ_r in Hall. apply Hall. lia.
    + split.
      * intros Heq. inversion Heq; subst. exists 1.
        change (Nat.iter 1 round s) with (round s).
        repeat split; auto; try lia.
      * intros [T [HT [-> [Hnc Hall]]]]. destruct T as [|T]; [lia|].
        destruct T as [|T]; [reflexivity|].
        specialize (Hall 1).
        change (Nat.iter 1 round s) with (round s) in Hall. lia.
Qed.

(** The loop ends, and within [fuel] rounds, when the components are at most
    [2^fuel]. *)
Lemma boruvka_loop_terminates fuel : forall s,
  Inv s -> 1 <= fuel -> components s <= 2 ^ fuel ->
  exists s',
    boruvka_loop n metric mode use_lower_bounds schedule updateSidedParents
      fuel s = Some s'.
Proof.
  induction fuel as [|f IH]; intros s H Hf Hc; [lia|].
  rewrite boruvka_loop_S.
  destruct (Z.ltb_spec 1 (st_num_components (round s))) as [Hgt|Hle]; eauto.
  pose proof (round_inv H) as H'.
  rewrite (num_components_count H') in Hgt.
  pose proof (round_components H) as Hrc.
  assert (H2 : 2 <= components s) by lia.
  pose proof (round_halves H H2) as Hh.
  simpl in Hc.
  destruct f as [|f]; [simpl in Hc; lia|].
  apply IH; auto; lia.
Qed.

Lemma boruvka_loop_more_fuel fuel fuel' s s' :
  fuel <= fuel' ->
  boruvka_loop n metric mode use_lower_bounds schedule updateSidedParents
    fuel s = Some s' ->
  boruvka_loop n metric mode use_lower_bounds schedule updateSidedParents
    fuel' s = Some s'.
Proof.
  intros Hle H. apply boruvka_loop_spec in H. apply boruvka_loop_spec.
  destruct H as [T [HT Hrest]]. exists T. split; [lia|exact Hrest].
Qed.

Definition start (obj : MinimumSpanningTree) (log : list Event) : State :=
  boruvka_init n mode use_lower_bounds obj log.

Definition after (T : nat) (obj : MinimumSpanningTree) (log : list Event)
  : State := Nat.iter T round (start obj log).

Lemma after_inv T obj log :
  length (edges obj) = n - 1 -> Inv (after T obj log).
Proof. intros H. apply iter_round_inv, init_inv, H. Qed.

(** The loop runs to its end, in at most [log2_up n] rounds when there are at
    least two points. *)
Lemma loop_run obj log :
  length (edges obj) = n - 1 ->
  exists T, 1 <= T /\ (2 <= n -> T <= Nat.log2_up n) /\
    boruvka_loop n metric mode use_lower_bounds schedule updateSidedParents
      (S n) (start obj log) = Some (after T obj log) /\
    (st_num_components (after T obj log) <= 1)%Z /\
    forall t, 1 <= t < T -> (1 < st_num_components (after t obj log))%Z.
Proof.
  intros Hl. pose proof (init_inv obj log Hl) as H0. fold (start obj log) in H0.
  set (fuel := Nat.max 1 (Nat.log2_up n)).
  assert (Hc : components (start obj log) <= 2 ^ fuel).
  { unfold components, start. simpl. rewrite roots_of_seq, length_seq.
    destruct (Nat.le_gt_cases n 1) as [H1|H1].
    - pose proof (Nat.pow_gt_lin_r 2 fuel). lia.
    - pose proof (Nat.log2_up_spec n H1) as [_ Hs].
      replace fuel with (Nat.log2_up n); auto.
      pose proof (Nat.log2_up_pos n H1). unfold fuel. lia. }
  destruct (@boruvka_loop_terminates fuel _ H0) as [s' Hs']; auto;
    [unfold fuel; lia|].
  pose proof Hs' as Hspec. apply boruvka_loop_spec in Hspec.
  destruct Hspec as [T [HT [-> [Hnc Hall]]]].
  exists T. repeat split; auto; try lia.
  - intros H2. pose proof (Nat.log2_up_pos n). unfold fuel in HT. lia.
  - apply boruvka_loop_more_fuel with fuel; auto.
    pose proof (Nat.log2_up_lt_lin n n_pos). unfold fuel. lia.
Qed.



End Loop.

(** ** The constructed object *)

Lemma mutual_reachability_sym euclid core :
  (forall i j, euclid i j = euclid j i) ->
  forall i j, mutual_reachability euclid core i j =
              mutual_reachability euclid core j i.
Proof. intros H i j. unfold mutual_reachability. rewrite (H i j). lia. Qed.

Lemma mutual_reachability_nonneg euclid core :
  (forall i j, (0 <= euclid i j)%Z) ->
  forall i j, (0 <= mutual_reachability euclid core i j)%Z.
Proof. intros H i j. unfold mutual_reachability. specialize (H i j). lia. Qed.


Section Constructed.
Variable n : nat.
Variable euclid : nat -> nat -> Z.
Variable mode : BoruvkaMode.
Variable use_lower_bounds : bool.
Variable schedule : nat -> list nat.
Variable ROOT_CHAIN_VALUE : Z.
Variable updateSidedParents :
  list nat -> list WeightedEdge -> list nat -> list Z -> nat -> nat -> list Z.
Variable computeParentsAndReorderEdges :
  list WeightedEdge -> list nat -> list Z -> list Z ->
  list WeightedEdge * list Z * list Z * list Z.

Hypothesis schedule_perm : forall t, Permutation (schedule t) (seq 0 n).
Hypothesis n_pos : 0 < n.

(** Lines 271-312 of [doBoruvka], after the loop. *)
Definition after_loop (s : State) : State :=
  match mode with
  | HDBSCAN =>
      finalize_dendrogram n computeParentsAndReorderEdges
        (assign_root_chain ROOT_CHAIN_VALUE (release_scratch s))
  | MST => release_scratch s
  end.

(** The state after [T] rounds of the loop under metric [m]. *)
Definition rounds (m : nat -> nat -> Z) (log : list Event) (T : nat) : State :=
  after n m mode use_lower_bounds schedule updateSidedParents T
        (initial_object n) log.

Lemma initial_edges_length : length (edges (initial_object n)) = n - 1.
Proof. apply repeat_length. Qed.

Lemma run_boruvka_spec m log :
  (forall i j, m i j = m j i) -> (forall i j, (0 <= m i j)%Z) ->
  exists T, 1 <= T /\ (2 <= n -> T <= Nat.log2_up n) /\
    run_boruvka n mode use_lower_bounds schedule ROOT_CHAIN_VALUE
      updateSidedParents computeParentsAndReorderEdges m log =
    Some (after_loop (rounds m log T)) /\
    Inv n m (rounds m log T) /\
    (st_num_components (rounds m log T) <= 1)%Z /\
    forall t, 1 <= t < T -> (1 < st_num_components (rounds m log t))%Z.
Proof.
  intros Hs Hn.
  destruct (@loop_run n m mode use_lower_bounds schedule updateSidedParents
              Hs Hn schedule_perm n_pos (initial_object n) log
              initial_edges_length) as [T [H1 [H2 [Hl [Hnc Hall]]]]].
  exists T. split; [exact H1|]. split; [exact H2|]. split; [|split; [|split]];
    auto.
  - unfold run_boruvka, doBoruvka. unfold start in Hl. rewrite Hl.
    unfold after_loop, rounds. destruct mode; reflexivity.
  - apply after_inv; auto. apply initial_edges_length.
Qed.

(** The metric the constructor hands to [doBoruvka], and the log so far. *)
Definition chosen_metric (k : Z) : nat -> nat -> Z :=
  if (1 <? k)%Z
  then mutual_reachability euclid
         (compute_core_distances n euclid (Z.to_nat k))
  else euclid.

Definition chosen_log (k : Z) : list Event :=
  if (1 <? k)%Z
  then [EvConstructBVH; EvComputeCoreDistances k; EvBoruvka MutualReachability]
  else [EvConstructBVH; EvBoruvka Euclidean].

Definition object_of (s : State) : MinimumSpanningTree :=
  mkMinimumSpanningTree (finalizeEdges n (st_edges s))
    (st_dendrogram_parents s) (st_dendrogram_parent_heights s)
    (st_chain_offsets s) (st_chain_levels s).

Lemma construct_unfold k :
  construct n euclid mode use_lower_bounds schedule ROOT_CHAIN_VALUE
    updateSidedParents computeParentsAndReorderEdges k =
  match run_boruvka n mode use_lower_bounds schedule ROOT_CHAIN_VALUE
          updateSidedParents computeParentsAndReorderEdges
          (chosen_metric k) (chosen_log k) with
  | None => None
  | Some s => Some (object_of s, st_log s ++ [EvFinalizeEdges])
  end.
Proof.
  unfold construct, chosen_metric, chosen_log. destruct (1 <? k)%Z; reflexivity.
Qed.

Hypothesis euclid_sym : forall i j, euclid i j = euclid j i.
Hypothesis euclid_nonneg : forall i j, (0 <= euclid i j)%Z.

Lemma chosen_metric_sym k i j : chosen_metric k i j = chosen_metric k j i.
Proof.
  unfold chosen_metric. destruct (1 <? k)%Z; auto.
  apply mutual_reachability_sym, euclid_sym.
Qed.

Lemma chosen_metric_nonneg k i j : (0 <= chosen_metric k i j)%Z.
Proof.
  unfold chosen_metric. destruct (1 <? k)%Z; auto.
  apply mutual_reachability_nonneg, euclid_nonneg.
Qed.

(** The constructor returns, for every [k]. *)
Lemma construct_spec k :
  exists T, 1 <= T /\ (2 <= n -> T <= Nat.log2_up n) /\
    let s := rounds (chosen_metric k) (chosen_log k) T in
    construct n euclid mode use_lower_bounds schedule ROOT_CHAIN_VALUE
      updateSidedParents computeParentsAndReorderEdges k =
    Some (object_of (after_loop s),
          st_log (after_loop s) ++ [EvFinalizeEdges]) /\
    Inv n (chosen_metric k) s /\
    (st_num_components s <= 1)%Z /\
    forall t, 1 <= t < T ->
      (1 < st_num_components (rounds (chosen_metric k) (chosen_log k) t))%Z.
Proof.
  destruct (@run_boruvka_spec (chosen_metric k) (chosen_log k)
              (chosen_metric_sym k) (chosen_metric_nonneg k))
    as [T [H1 [H2 [Hr Hrest]]]].
  exists T. split; [exact H1|]. split; [exact H2|]. cbv zeta.
  split; [|exact Hrest].
  rewrite construct_unfold, Hr. reflexivity.
Qed.
End Constructed.


(** ** Facts about the concrete inputs *)

Lemma line_distance_sym coords i j :
  line_distance coords i j = line_distance coords j i.
Proof. unfold line_distance. lia. Qed.

Lemma line_distance_nonneg coords i j : (0 <= line_distance coords i j)%Z.
Proof. unfold line_distance. lia. Qed.

Lemma serial_schedule_perm n t : Permutation (serial_schedule n t) (seq 0 n).
Proof. apply Permutation_refl. Qed.



(** ** The call log and the dendrogram views *)

Section Trace.
Variable n : nat.
Variable metric : nat -> nat -> Z.
Variable mode : BoruvkaMode.
Variable use_lower_bounds : bool.
Variable schedule : nat -> list nat.
Variable updateSidedParents :
  list nat -> list WeightedEdge -> list nat -> list Z -> nat -> nat -> list Z.

Definition round' : State -> State :=
  boruvka_round n metric mode use_lower_bounds schedule updateSidedParents.

(** What one round appends to the log. *)
Definition events_of_round (s : State) : list Event :=
  [EvIteration (S (st_iterations s)) (st_num_components s);
   EvReduceLabels; EvResetSharedRadii;
   EvFindComponentNearestNeighbors; EvRetrieveEdges] ++
  (if use_lower_bounds then [EvUpdateLowerBounds] else []) ++
  [EvUnidirectionalEdges] ++
  match mode with
  | HDBSCAN =>
      [EvBidirectionalEdges;
       if 1 <? S (st_iterations s)
       then EvUpdateSidedParents (S (st_iterations s))
              (st_edges_start s) (st_edges_end s)
       else EvAssignVertexParents (S (st_iterations s))]
  | MST => []
  end ++
  [EvUpdateLabels].

Lemma round_log s : st_log (round' s) = st_log s ++ events_of_round s.
Proof. reflexivity. Qed.

Lemma rounds_log T s :
  st_log (Nat.iter T round' s) =
  st_log s ++
  flat_map (fun t => events_of_round (Nat.iter t round' s)) (seq 0 T).
Proof.
  induction T as [|T IH].
  - simpl. rewrite app_nil_r. reflexivity.
  - rewrite Nat.iter_succ, round_log, IH, seq_S, flat_map_app.
    simpl flat_map. rewrite app_nil_r, app_assoc. reflexivity.
Qed.


(** In MST mode a round leaves the dendrogram views alone. *)
Lemma emit_mapping_MST labels out l : forall st,
  es_mapping (fold_left (emit_one MST labels out) l st) = es_mapping st.
Proof.
  induction l as [|i l IH]; intros st; simpl; auto.
  rewrite IH. unfold emit_one.
  destruct (_ && _); auto. destruct (nth i _ None); auto.
Qed.

Lemma round_dendrogram_untouched s :
  mode = MST ->
  st_dendrogram_parents (round' s) = st_dendrogram_parents s /\
  st_dendrogram_parent_heights (round' s) = st_dendrogram_parent_heights s /\
  st_chain_offsets (round' s) = st_chain_offsets s /\
  st_chain_levels (round' s) = st_chain_levels s /\
  st_sided_parents (round' s) = st_sided_parents s /\
  st_edges_mapping (round' s) = st_edges_mapping s.
Proof.
  intros Hm. unfold round', boruvka_round. rewrite Hm. simpl.
  repeat split; try reflexivity.
  unfold update_unidirectional_edges. rewrite emit_mapping_MST. reflexivity.
Qed.
End Trace.

(** The reading of the label update.  On six points of a line, in the first
    round, component 1 emits the edge (1,2); [next_component] sends it to
    component 2 and on to 0, where 2 goes; the one-line rule
    [min(c, label(target))] leaves it at 1, a fixed point of every later
    sweep, while it sends 2 to 0: the two ends of an emitted edge would keep
    different labels. *)
Example min_rule_separates :
  let labels := seq 0 6 in
  let out := found 6 (line_distance [0; 5; 2; 200; 2000; 2001]%Z) labels [] in
  nth 1 out None = Some (mkDirectedEdge 1 2 3) /\
  emits labels out 1 = true /\
  min_rule labels out 1 = 1 /\
  min_rule labels out 2 = 0 /\
  next_component labels out 1 = 2 /\
  next_component labels out 2 = 0 /\
  nth 1 (update_labels labels out) 1 = 0.
Proof. vm_compute. repeat split; reflexivity. Qed.

(** ** Two scenarios of the spec *)

(** Five points on a line, [k = 1]: the four unit edges. *)
Example scenario_line_of_five :
  option_map (fun r => canonical_sort (edges (fst r)))
    (construct_line MST true [0; 1; 2; 3; 4]%Z 1) =
  Some [mkWeightedEdge 0 1 1; mkWeightedEdge 2 1 1;
        mkWeightedEdge 3 2 1; mkWeightedEdge 4 3 1].
Proof. vm_compute. reflexivity. Qed.

(** Two coincident points and a third: the tie is broken towards (0,1,0), and
    the total weight is 1. *)
Example scenario_duplicates :
  option_map (fun r => edges (fst r))
    (construct_line MST true [0; 0; 1]%Z 1) =
  Some [mkWeightedEdge 0 1 0; mkWeightedEdge 2 0 1].
Proof. vm_compute. reflexivity. Qed.
(** ** The two readings of the helper steps *)







(** * The claims *)









Lemma mst_rounds_dendrogram n m use_lower_bounds schedule updateSidedParents
    log T :
  let s := rounds n MST use_lower_bounds schedule updateSidedParents m log T in
  st_dendrogram_parents s = [] /\
  st_dendrogram_parent_heights s = [] /\
  st_chain_offsets s = [] /\
  st_chain_levels s = [].
Proof.
  cbv zeta. unfold rounds, after. induction T as [|T IH].
  - simpl. auto.
  - rewrite Nat.iter_succ.
    destruct (@round_dendrogram_untouched n m MST use_lower_bounds schedule
                updateSidedParents
                (Nat.iter T (round n m MST use_lower_bounds schedule
                                   updateSidedParents)
                   (start n MST use_lower_bounds (initial_object n) log))
                eq_refl) as [H1 [H2 [H3 [H4 _]]]].
    change (round' n m MST use_lower_bounds schedule updateSidedParents)
      with (round n m MST use_lower_bounds schedule updateSidedParents) in *.
    rewrite H1, H2, H3, H4. exact IH.
Qed.

(** C10.  In MST mode the constructor returns an object whose four
    dendrogram views, [dendrogram_parents], [dendrogram_parent_heights],
    [_chain_offsets] and [_chain_levels], have length 0, and they have length
    0 after every round of the loop. *)
Theorem C10_mst_mode_dendrogram_views_empty
    n euclid use_lower_bounds schedule ROOT_CHAIN_VALUE
    updateSidedParents computeParentsAndReorderEdges k :
  0 < n ->
  (forall i j, euclid i j = euclid j i) ->
  (forall i j, (0 <= euclid i j)%Z) ->
  (forall t, Permutation (schedule t) (seq 0 n)) ->
  (exists obj log,
     construct n euclid MST use_lower_bounds schedule ROOT_CHAIN_VALUE
       updateSidedParents computeParentsAndReorderEdges k = Some (obj, log) /\
     length (dendrogram_parents obj) = 0 /\
     length (dendrogram_parent_heights obj) = 0 /\
     length (_chain_offsets obj) = 0 /\
     length (_chain_levels obj) = 0) /\
  forall T,
    let s := rounds n MST use_lower_bounds schedule updateSidedParents
                    (chosen_metric n euclid k) (chosen_log k) T in
    length (st_dendrogram_parents s) = 0 /\
    length (st_dendrogram_parent_heights s) = 0 /\
    length (st_chain_offsets s) = 0 /\
    length (st_chain_levels s) = 0.
Proof.
  intros Hpos Hsym Hnn Hsched. split.
  - destruct (@construct_spec n euclid MST use_lower_bounds schedule
                ROOT_CHAIN_VALUE updateSidedParents
                computeParentsAndReorderEdges Hsched Hpos Hsym Hnn k)
      as [T [_ [_ [Hc _]]]].
    cbv zeta in Hc. eexists. eexists. split; [exact Hc|].
    destruct (mst_rounds_dendrogram n (chosen_metric n euclid k)
                use_lower_bounds schedule updateSidedParents (chosen_log k) T)
      as [H1 [H2 [H3 H4]]].
    simpl. rewrite H1, H2, H3, H4. auto.
  - intros T.
    destruct (mst_rounds_dendrogram n (chosen_metric n euclid k)
                use_lower_bounds schedule updateSidedParents (chosen_log k) T)
      as [H1 [H2 [H3 H4]]].
    cbv zeta. rewrite H1, H2, H3, H4. auto.
Qed.

Lemma C10_witness :
  (exists obj log,
     construct 4 (line_distance [0; 1; 2; 10]%Z) MST true (serial_schedule 4)
       (-1)%Z keep_sided_parents keep_edge_order 2 = Some (obj, log) /\
     length (dendrogram_parents obj) = 0 /\
     length (dendrogram_parent_heights obj) = 0 /\
     length (_chain_offsets obj) = 0 /\
     length (_chain_levels obj) = 0) /\
  forall T,
    let s := rounds 4 MST true (serial_schedule 4) keep_sided_parents
                    (chosen_metric 4 (line_distance [0; 1; 2; 10]%Z) 2)
                    (chosen_log 2) T in
    length (st_dendrogram_parents s) = 0 /\
    length (st_dendrogram_parent_heights s) = 0 /\
    length (st_chain_offsets s) = 0 /\
    length (st_chain_levels s) = 0.
Proof.
  apply C10_mst_mode_dendrogram_views_empty.
  - lia.
  - apply line_distance_sym.
  - apply line_distance_nonneg.
  - apply serial_schedule_perm.
Defined.

(** C9.  In HDBSCAN mode, for [n >= 2] points, the constructor returns an
    object whose [edges] and [dendrogram_parent_heights] views both have
    [n - 1] entries, and for every [e] in [0, n - 2] entry [e] of the
    heights is the weight of entry [e] of [edges].  The helper
    [computeParentsAndReorderEdges], which reorders the edges in place, is
    taken to keep the extent of the view. *)
Theorem C9_parent_heights_are_edge_weights
    n euclid use_lower_bounds schedule ROOT_CHAIN_VALUE
    updateSidedParents computeParentsAndReorderEdges k :
  2 <= n ->
  (forall i j, euclid i j = euclid j i) ->
  (forall i j, (0 <= euclid i j)%Z) ->
  (forall t, Permutation (schedule t) (seq 0 n)) ->
  (forall es offs sided parents,
     length (fst (fst (fst
       (computeParentsAndReorderEdges es offs sided parents)))) =
     length es) ->
  exists obj log,
    construct n euclid HDBSCAN use_lower_bounds schedule ROOT_CHAIN_VALUE
      updateSidedParents computeParentsAndReorderEdges k = Some (obj, log) /\
    length (edges obj) = n - 1 /\
    length (dendrogram_parent_heights obj) = n - 1 /\
    Forall2 (fun h x => h = weight x)
            (dendrogram_parent_heights obj) (edges obj) /\
    forall e, e < n - 1 ->
      exists x, nth_error (edges obj) e = Some x /\
                nth_error (dendrogram_parent_heights obj) e =
                Some (weight x).
Proof.
  intros H2 Hsym Hnn Hsched Hkeep. assert (Hpos : 0 < n) by lia.
  destruct (@construct_spec n euclid HDBSCAN use_lower_bounds schedule
              ROOT_CHAIN_VALUE updateSidedParents
              computeParentsAndReorderEdges Hsched Hpos Hsym Hnn k)
    as [T [_ [_ [Hc [Hinv _]]]]].
  cbv zeta in Hc. eexists. eexists. split; [exact Hc|].
  set (s := rounds n HDBSCAN use_lower_bounds schedule updateSidedParents
              (chosen_metric n euclid k) (chosen_log k) T) in *.
  pose proof (inv_edges_length Hinv) as Hlen.
  unfold object_of, after_loop, finalize_dendrogram, finalizeEdges.
  specialize (Hkeep (st_edges (assign_root_chain ROOT_CHAIN_VALUE
                                 (release_scratch s)))
                (st_edge_offsets (assign_root_chain ROOT_CHAIN_VALUE
                                    (release_scratch s)))
                (st_sided_parents (assign_root_chain ROOT_CHAIN_VALUE
                                     (release_scratch s)))
                (st_dendrogram_parents (assign_root_chain ROOT_CHAIN_VALUE
                                          (release_scratch s)))).
  destruct (computeParentsAndReorderEdges _ _ _ _) as [[[es p] o] l].
  cbn [fst st_edges assign_root_chain release_scratch] in Hkeep.
  rewrite Hlen in Hkeep.
  cbn [edges dendrogram_parent_heights st_edges
       st_dendrogram_parent_heights].
  assert (Hfirst : firstn (n - 1) es = es)
    by (rewrite <- Hkeep; apply firstn_all).
  rewrite Hfirst.
  assert (Hheights :
    map (fun e => weight (nth e es junk_edge)) (seq 0 (n - 1)) =
    map weight es).
  { rewrite <- Hkeep. clear. induction es as [|x es IH]; simpl; auto.
    f_equal. rewrite <- seq_shift, map_map. exact IH. }
  rewrite Hheights.
  split; [exact Hkeep|]. split; [rewrite length_map; exact Hkeep|].
  split.
  - clear. induction es as [|x es IH]; simpl; constructor; auto.
  - intros e He. rewrite <- Hkeep in He.
    destruct (nth_error es e) as [x|] eqn:Hx;
      [|apply nth_error_None in Hx; lia].
    exists x. split; [reflexivity|].
    rewrite nth_error_map, Hx. reflexivity.
Qed.

Lemma C9_witness :
  exists obj log,
    construct 4 (line_distance [0; 1; 2; 10]%Z) HDBSCAN true
      (serial_schedule 4) (-1)%Z keep_sided_parents keep_edge_order 2
    = Some (obj, log) /\
    length (edges obj) = 4 - 1 /\
    length (dendrogram_parent_heights obj) = 4 - 1 /\
    Forall2 (fun h x => h = weight x)
            (dendrogram_parent_heights obj) (edges obj) /\
    forall e, e < 4 - 1 ->
      exists x, nth_error (edges obj) e = Some x /\
                nth_error (dendrogram_parent_heights obj) e =
                Some (weight x).
Proof.
  apply C9_parent_heights_are_edge_weights.
  - lia.
  - apply line_distance_sym.
  - apply line_distance_nonneg.
  - apply serial_schedule_perm.
  - reflexivity.
Defined.



Section RootChain.
Variable n : nat.
Variable metric : nat -> nat -> Z.
Variable use_lower_bounds : bool.
Variable schedule : nat -> list nat.
Variable updateSidedParents :
  list nat -> list WeightedEdge -> list nat -> list Z -> nat -> nat -> list Z.
Hypothesis updateSidedParents_length : forall l es m sp a b,
  length (updateSidedParents l es m sp a b) = length sp.



End RootChain.




(** On the six points of the witness the loop takes two rounds; round 2
    emits the edges of slots 3 and 4, which get the root as parent. *)
Example root_chain_of_six_points :
  exists obj log,
    construct 6 (line_distance [0; 1; 6; 7; 100; 110]%Z) HDBSCAN false
      (serial_schedule 6) (-2)%Z keep_sided_parents
      (root_chain_to_root (-2) (-1)) 1 = Some (obj, log) /\
    skipn 3 (edges obj) = [mkWeightedEdge 1 2 5; mkWeightedEdge 4 3 93] /\
    nth_error (dendrogram_parents obj) 3 = Some (-1)%Z /\
    nth_error (dendrogram_parents obj) 4 = Some (-1)%Z.
Proof. eexists. eexists. repeat split; vm_compute; reflexivity. Qed.

(** The events logged inside [doBoruvka] and after it: all but the three the
    constructor logs before calling it. *)
Definition inside_boruvka (e : Event) : Prop :=
  match e with
  | EvConstructBVH | EvComputeCoreDistances _ | EvBoruvka _ => False
  | _ => True
  end.

Lemma events_of_round_inside mode use_lower_bounds s :
  Forall inside_boruvka (events_of_round mode use_lower_bounds s).
Proof.
  unfold events_of_round.
  destruct use_lower_bounds, mode; simpl;
    repeat (constructor; simpl; auto);
    destruct (st_iterations s); simpl; auto.
Qed.

Lemma rounds_log_inside n m mode use_lower_bounds schedule updateSidedParents
    log T :
  exists tail,
    st_log (rounds n mode use_lower_bounds schedule updateSidedParents m log T)
    = log ++ tail /\
    Forall inside_boruvka tail.
Proof.
  unfold rounds, after.
  change (round n m mode use_lower_bounds schedule updateSidedParents)
    with (round' n m mode use_lower_bounds schedule updateSidedParents).
  rewrite rounds_log. unfold start. simpl st_log. rewrite <- app_assoc.
  eexists. split; [reflexivity|].
  apply Forall_app. split; [repeat constructor|].
  apply Forall_flat_map. apply Forall_forall. intros t _.
  apply events_of_round_inside.
Qed.

Lemma after_loop_log_inside n mode ROOT cPRE s :
  exists tail,
    st_log (after_loop n mode ROOT cPRE s) = st_log s ++ tail /\
    Forall inside_boruvka tail.
Proof.
  unfold after_loop, finalize_dendrogram. destruct mode.
  - exists []. simpl. rewrite app_nil_r. auto.
  - simpl. destruct (cPRE _ _ _ _) as [[[es p] o] l]. simpl.
    rewrite <- app_assoc. eexists. split; [reflexivity|].
    repeat constructor.
Qed.


(** ** The core distances *)

Lemma fold_max_spec l : forall a,
  let r := fold_left Z.max l a in
  (a <= r)%Z /\ (forall x, In x l -> (x <= r)%Z) /\ (r = a \/ In r l).
Proof.
  induction l as [|x l IH]; intros a; simpl.
  - split; [lia|]. split; [tauto|auto].
  - destruct (IH (Z.max a x)) as [H1 [H2 H3]]. split; [lia|]. split.
    + intros y [<-|Hy]; [lia|auto].
    + destruct H3 as [H3|H3]; [|auto].
      destruct (Z.max_spec a x) as [[_ Hm]|[_ Hm]]; rewrite Hm in *;
        [right; left; symmetry; exact H3|left; exact H3].
Qed.

Lemma sorted_app_le (l1 l2 : list Z) :
  StronglySorted (fun a b => (b <? a)%Z = false) (l1 ++ l2) ->
  forall x y, In x l1 -> In y l2 -> (x <= y)%Z.
Proof.
  induction l1 as [|h t IH]; simpl; intros Hs x y Hx Hy; [tauto|].
  inversion Hs as [|? ? Ht Hh]; subst. destruct Hx as [<-|Hx].
  - rewrite Forall_forall in Hh. apply Z.ltb_ge, Hh, in_or_app. auto.
  - apply IH; auto.
Qed.

Lemma filter_map_length A B (f : B -> bool) (g : A -> B) l :
  length (filter f (map g l)) = length (filter (fun x => f (g x)) l).
Proof.
  induction l as [|a l IH]; simpl; auto. destruct (f (g a)); simpl; lia.
Qed.

Lemma filter_all_length A (f : A -> bool) l :
  (forall x, In x l -> f x = true) -> length (filter f l) = length l.
Proof.
  induction l as [|a l IH]; simpl; intros H; auto.
  rewrite (H a) by auto. simpl. rewrite IH; auto.
Qed.

Lemma filter_none_length A (f : A -> bool) l :
  (forall x, In x l -> f x = false) -> length (filter f l) = 0.
Proof.
  induction l as [|a l IH]; simpl; intros H; auto.
  rewrite (H a) by auto. apply IH; auto.
Qed.

Lemma filter_some_out_length A (f : A -> bool) l x :
  In x l -> f x = false -> length (filter f l) < length l.
Proof.
  induction l as [|a l IH]; simpl; intros Hx Hf; [tauto|].
  pose proof (filter_length_le f (fun _ => true) l
                (fun _ _ _ => eq_refl)) as Hle.
  rewrite (filter_all_length (fun _ : A => true) l (fun _ _ => eq_refl)) in Hle.
  destruct Hx as [->|Hx].
  - rewrite Hf. lia.
  - specialize (IH Hx Hf). destruct (f a); simpl; lia.
Qed.

(** The core distance of [p] is the [k]-th smallest of the distances from
    [p] to the [n] points, [p] among them, and the largest of them when
    there are fewer than [k] points. *)
Lemma core_distance_kth n euclid k p :
  0 < n -> 0 < k -> (forall i j, (0 <= euclid i j)%Z) ->
  let c := core_distance n euclid k p in
  (exists j, j < n /\ c = euclid p j) /\
  length (filter (fun j => (euclid p j <? c)%Z) (seq 0 n)) < k /\
  Nat.min k n <= length (filter (fun j => (euclid p j <=? c)%Z) (seq 0 n)).
Proof.
  intros Hn Hk Hnn c.
  set (D := map (euclid p) (seq 0 n)).
  set (S := sort_by Z.ltb D).
  assert (HpS : Permutation S D) by apply sort_by_perm.
  assert (HsS : StronglySorted (fun a b => (b <? a)%Z = false) S).
  { apply (@sort_by_ordered Z Z.ltb).
    - intros x y H. apply Z.ltb_lt in H. apply Z.ltb_ge. lia.
    - intros x y z H1 H2. apply Z.ltb_ge in H1, H2. apply Z.ltb_ge. lia. }
  assert (HlS : length S = n)
    by (rewrite (Permutation_length HpS); unfold D;
        rewrite length_map, length_seq; reflexivity).
  assert (HinD : forall x, In x S -> exists j, j < n /\ x = euclid p j).
  { intros x Hx. apply (Permutation_in _ HpS) in Hx. unfold D in Hx.
    apply in_map_iff in Hx. destruct Hx as [j [<- Hj]].
    apply in_seq in Hj. exists j. split; [lia|reflexivity]. }
  set (F := firstn k S). set (R := skipn k S).
  assert (HFR : S = F ++ R) by (symmetry; apply firstn_skipn).
  assert (HlF : length F = Nat.min k n)
    by (unfold F; rewrite length_firstn, HlS; reflexivity).
  destruct (fold_max_spec F 0%Z) as [H0 [Hle Hin]]. fold F in c.
  change (fold_left Z.max F 0%Z) with c in *.
  assert (HcF : In c F).
  { destruct Hin as [Hc|Hc]; [|exact Hc].
    destruct F as [|x F'] eqn:HF; [simpl in HlF; lia|].
    assert (Hx : In x S) by (rewrite HFR; left; reflexivity).
    destruct (HinD x Hx) as [j [_ Hj]].
    pose proof (Hle x (or_introl eq_refl)) as Hxc.
    pose proof (Hnn p j). left. lia. }
  assert (HcS : In c S) by (rewrite HFR; apply in_or_app; auto).
  split; [apply HinD, HcS|].
  assert (Hcount : forall f : Z -> bool,
            length (filter (fun j => f (euclid p j)) (seq 0 n)) =
            length (filter f F) + length (filter f R)).
  { intros f. rewrite <- filter_map_length. fold D.
    rewrite <- (Permutation_length (filter_perm f HpS)), HFR, filter_app,
      length_app. reflexivity. }
  split.
  - rewrite (Hcount (fun d => (d <? c)%Z)).
    rewrite (filter_none_length (fun d => (d <? c)%Z) R).
    + pose proof (@filter_some_out_length Z (fun d => (d <? c)%Z) F c HcF
                    (Z.ltb_irrefl c)). lia.
    + intros y Hy. apply Z.ltb_ge.
      rewrite HFR in HsS. apply (sorted_app_le _ _ HsS); auto.
  - rewrite (Hcount (fun d => (d <=? c)%Z)).
    rewrite (filter_all_length (fun d => (d <=? c)%Z) F).
    + lia.
    + intros x Hx. apply Z.leb_le, Hle, Hx.
Qed.

Lemma compute_core_distances_nth n euclid k p :
  p < n ->
  nth p (compute_core_distances n euclid k) 0%Z = core_distance n euclid k p.
Proof. intros H. unfold compute_core_distances. apply nth_map_seq, H. Qed.

Lemma compute_core_distances_length n euclid k :
  length (compute_core_distances n euclid k) = n.
Proof. unfold compute_core_distances. rewrite length_map, length_seq. reflexivity. Qed.

(** C3.  For every input, the constructor returns, and: if [k > 1] its log
    starts with the construction of the tree, the computation of the core
    distances for [k] and the call of [doBoruvka] with the mutual
    reachability metric built from these core distances, and the object is
    the one [doBoruvka] leaves under that metric; the core distances are a
    view of [n] entries, the entry of point [p] being the distance from [p]
    to its [k]-th nearest point in the tree, which holds [p] itself: a
    distance from [p] to one of the points, with fewer than [k] points
    strictly nearer and at least [k] points, or all [n] when [k > n], no
    farther; the metric is the largest of the two core distances and the
    Euclidean distance.  If [k = 1] the log starts with the construction of
    the tree and the call of [doBoruvka] with the Euclidean metric, the
    object is the one [doBoruvka] leaves under the Euclidean metric, and no
    core distances are computed at any point. *)
Theorem C3_metric_follows_k
    n euclid mode use_lower_bounds schedule ROOT_CHAIN_VALUE
    updateSidedParents computeParentsAndReorderEdges k :
  0 < n ->
  (forall i j, euclid i j = euclid j i) ->
  (forall i j, (0 <= euclid i j)%Z) ->
  (forall t, Permutation (schedule t) (seq 0 n)) ->
  exists obj log tail,
    construct n euclid mode use_lower_bounds schedule ROOT_CHAIN_VALUE
      updateSidedParents computeParentsAndReorderEdges k = Some (obj, log) /\
    Forall inside_boruvka tail /\
    ((1 < k)%Z ->
     let core_distances := compute_core_distances n euclid (Z.to_nat k) in
     let setup := [EvConstructBVH; EvComputeCoreDistances k;
                   EvBoruvka MutualReachability] in
     log = setup ++ tail /\
     (exists s,
        run_boruvka n mode use_lower_bounds schedule ROOT_CHAIN_VALUE
          updateSidedParents computeParentsAndReorderEdges
          (mutual_reachability euclid core_distances) setup = Some s /\
        obj = object_of n s) /\
     length core_distances = n /\
     (forall p, p < n ->
        let c := nth p core_distances 0%Z in
        (exists j, j < n /\ c = euclid p j) /\
        length (filter (fun j => (euclid p j <? c)%Z) (seq 0 n)) <
          Z.to_nat k /\
        Nat.min (Z.to_nat k) n <=
          length (filter (fun j => (euclid p j <=? c)%Z) (seq 0 n))) /\
     (forall i j,
        mutual_reachability euclid core_distances i j =
        Z.max (nth i core_distances 0%Z)
              (Z.max (nth j core_distances 0%Z) (euclid i j)))) /\
    (k = 1%Z ->
     let setup := [EvConstructBVH; EvBoruvka Euclidean] in
     log = setup ++ tail /\
     (forall k', ~ In (EvComputeCoreDistances k') log) /\
     exists s,
       run_boruvka n mode use_lower_bounds schedule ROOT_CHAIN_VALUE
         updateSidedParents computeParentsAndReorderEdges euclid setup
       = Some s /\
       obj = object_of n s).
Proof.
  intros Hpos Hsym Hnn Hsched.
  destruct (@run_boruvka_spec n mode use_lower_bounds schedule
              ROOT_CHAIN_VALUE updateSidedParents
              computeParentsAndReorderEdges Hsched Hpos
              (chosen_metric n euclid k) (chosen_log k)
              (@chosen_metric_sym n euclid Hsym k)
              (@chosen_metric_nonneg n euclid Hnn k))
    as [T [_ [_ [Hr _]]]].
  set (s := rounds n mode use_lower_bounds schedule updateSidedParents
                   (chosen_metric n euclid k) (chosen_log k) T) in *.
  destruct (rounds_log_inside n (chosen_metric n euclid k) mode
              use_lower_bounds schedule updateSidedParents (chosen_log k) T)
    as [t1 [Hl1 Hq1]]. fold s in Hl1.
  destruct (after_loop_log_inside n mode ROOT_CHAIN_VALUE
              computeParentsAndReorderEdges s) as [t2 [Hl2 Hq2]].
  set (s' := after_loop n mode ROOT_CHAIN_VALUE
               computeParentsAndReorderEdges s) in *.
  assert (Hq : Forall inside_boruvka (t1 ++ t2 ++ [EvFinalizeEdges])).
  { apply Forall_app. split; auto. apply Forall_app. split; auto.
    repeat constructor. }
  exists (object_of n s'), (st_log s' ++ [EvFinalizeEdges]),
    (t1 ++ t2 ++ [EvFinalizeEdges]).
  split; [rewrite construct_unfold, Hr; reflexivity|].
  split; [exact Hq|].
  assert (Hlog : st_log s' ++ [EvFinalizeEdges] =
                 chosen_log k ++ t1 ++ t2 ++ [EvFinalizeEdges])
    by (rewrite Hl2, Hl1, <- !app_assoc; reflexivity).
  unfold chosen_metric, chosen_log in *.
  split.
  - intros Hk. cbv zeta. rewrite (proj2 (Z.ltb_lt _ _) Hk) in *.
    split; [exact Hlog|]. split; [exists s'; auto|].
    split; [apply compute_core_distances_length|].
    split; [|reflexivity].
    intros p Hp. rewrite compute_core_distances_nth by exact Hp.
    apply core_distance_kth; auto. lia.
  - intros ->. cbv zeta. simpl in *.
    split; [exact Hlog|]. split; [|exists s'; auto].
    intros k' Hin. rewrite Hlog in Hin. simpl in Hin.
    destruct Hin as [Hin|[Hin|Hin]]; try discriminate.
    rewrite Forall_forall in Hq. apply (Hq _ Hin).
Qed.

Lemma C3_witness :
  exists obj log tail,
    construct 4 (line_distance [0; 1; 2; 10]%Z) HDBSCAN true
      (serial_schedule 4) (-1)%Z keep_sided_parents keep_edge_order 2
    = Some (obj, log) /\
    Forall inside_boruvka tail /\
    ((1 < 2)%Z ->
     let core_distances :=
       compute_core_distances 4 (line_distance [0; 1; 2; 10]%Z) (Z.to_nat 2) in
     let setup := [EvConstructBVH; EvComputeCoreDistances 2;
                   EvBoruvka MutualReachability] in
     log = setup ++ tail /\
     (exists s,
        run_boruvka 4 HDBSCAN true (serial_schedule 4) (-1)%Z
          keep_sided_parents keep_edge_order
          (mutual_reachability (line_distance [0; 1; 2; 10]%Z)
             core_distances)
          setup = Some s /\
        obj = object_of 4 s) /\
     length core_distances = 4 /\
     (forall p, p < 4 ->
        let c := nth p core_distances 0%Z in
        (exists j, j < 4 /\ c = line_distance [0; 1; 2; 10]%Z p j) /\
        length (filter (fun j => (line_distance [0; 1; 2; 10]%Z p j <? c)%Z)
                       (seq 0 4)) < Z.to_nat 2 /\
        Nat.min (Z.to_nat 2) 4 <=
          length (filter
                    (fun j => (line_distance [0; 1; 2; 10]%Z p j <=? c)%Z)
                    (seq 0 4))) /\
     (forall i j,
        mutual_reachability (line_distance [0; 1; 2; 10]%Z) core_distances
          i j =
        Z.max (nth i core_distances 0%Z)
              (Z.max (nth j core_distances 0%Z)
                     (line_distance [0; 1; 2; 10]%Z i j)))) /\
    (2%Z = 1%Z ->
     let setup := [EvConstructBVH; EvBoruvka Euclidean] in
     log = setup ++ tail /\
     (forall k', ~ In (EvComputeCoreDistances k') log) /\
     exists s,
       run_boruvka 4 HDBSCAN true (serial_schedule 4) (-1)%Z
         keep_sided_parents keep_edge_order
         (line_distance [0; 1; 2; 10]%Z) setup
       = Some s /\
       obj = object_of 4 s).
Proof.
  apply C3_metric_follows_k.
  - lia.
  - apply line_distance_sym.
  - apply line_distance_nonneg.
  - apply serial_schedule_perm.
Defined.

(** The core distances of the four points 0, 1, 2 and 10 of a line for
    [k = 2]: the distance to the nearest other point, 8 for the last one. *)
Example core_distances_of_a_line :
  compute_core_distances 4 (line_distance [0; 1; 2; 10]%Z) 2 =
  [1; 1; 1; 8]%Z.
Proof. reflexivity. Qed.














(** ** The slots recorded in [edges_mapping] *)






Section EdgesMapping.
Variable n : nat.
Variable metric : nat -> nat -> Z.
Variable labels : list nat.
Hypothesis labels_length : length labels = n.
Hypothesis labels_roots : forall i, i < n ->
  label_of labels i < n /\
  label_of labels (label_of labels i) = label_of labels i.





End EdgesMapping.





(** What round 1 records for the six points of the witness: the slots of
    the five leaves below [n - 1], and the three edges they point to. *)
Example vertex_parents_of_six_points :
  let s := rounds 6 HDBSCAN true (serial_schedule 6) keep_sided_parents
                  (chosen_metric 6 (line_distance [0; 1; 6; 7; 100; 110]%Z) 1)
                  (chosen_log 1) in
  firstn 5 (skipn 5 (st_dendrogram_parents (s 1))) = [0; 0; 1; 1; 2]%Z /\
  firstn (st_num_edges (s 1)) (st_edges (s 1)) =
    [mkWeightedEdge 0 1 1; mkWeightedEdge 2 3 1; mkWeightedEdge 4 5 10].
Proof. split; vm_compute; reflexivity. Qed.

(** ** The lower-bound cache *)

(** A state without its cache and its log. *)
Definition without_cache (s : State) : State :=
  mkState (st_labels s) (st_component_out_edges s) (st_weights s) []
    (st_num_edges s) (st_edges s) (st_edges_mapping s) (st_sided_parents s)
    (st_dendrogram_parents s) (st_dendrogram_parent_heights s)
    (st_chain_offsets s) (st_chain_levels s) (st_iterations s)
    (st_num_components s) (st_edges_start s) (st_edges_end s)
    (st_edge_offsets s) [].

Section Cache.
Variable n : nat.
Variable metric : nat -> nat -> Z.
Variable mode : BoruvkaMode.
Variable schedule : nat -> list nat.
Variable ROOT_CHAIN_VALUE : Z.
Variable updateSidedParents :
  list nat -> list WeightedEdge -> list nat -> list Z -> nat -> nat -> list Z.
Variable computeParentsAndReorderEdges :
  list WeightedEdge -> list nat -> list Z -> list Z ->
  list WeightedEdge * list Z * list Z * list Z.

Hypothesis metric_sym : forall i j, metric i j = metric j i.
Hypothesis metric_nonneg : forall i j, (0 <= metric i j)%Z.
Hypothesis schedule_perm : forall t, Permutation (schedule t) (seq 0 n).
Hypothesis n_pos : 0 < n.

Definition round_with (cache : bool) : State -> State :=
  boruvka_round n metric mode cache schedule updateSidedParents.

Definition loop_with (cache : bool) : nat -> State -> option State :=
  boruvka_loop n metric mode cache schedule updateSidedParents.

(** A round with the cache and a round without it differ in the cache and
    the log only. *)
Lemma round_without_cache s1 s2 :
  Inv n metric s1 -> Inv n metric s2 ->
  without_cache s1 = without_cache s2 ->
  without_cache (round_with true s1) = without_cache (round_with false s2).
Proof.
  intros H1 H2 He.
  pose proof (FCNN_cache (inv_bounds H1)) as Hf1.
  pose proof (FCNN_cache (inv_bounds H2)) as Hf2.
  destruct s1, s2. unfold without_cache in He. simpl in He.
  inversion He; subst; clear He.
  unfold round_with, boruvka_round, without_cache.
  cbn [st_labels st_component_out_edges st_weights st_lower_bounds
       st_num_edges st_edges st_edges_mapping st_sided_parents
       st_dendrogram_parents st_dendrogram_parent_heights st_chain_offsets
       st_chain_levels st_iterations st_num_components st_edges_start
       st_edges_end st_edge_offsets st_log] in *.
  rewrite Hf1, Hf2. reflexivity.
Qed.

Lemma loop_without_cache fuel : forall s1 s2,
  Inv n metric s1 -> Inv n metric s2 ->
  without_cache s1 = without_cache s2 ->
  option_map without_cache (loop_with true fuel s1) =
  option_map without_cache (loop_with false fuel s2).
Proof.
  unfold loop_with.
  induction fuel as [|f IH]; intros s1 s2 H1 H2 He; [reflexivity|].
  rewrite !boruvka_loop_S.
  pose proof (round_without_cache H1 H2 He) as Hr.
  unfold round_with in Hr. unfold round.
  assert (Hnc : st_num_components
                  (boruvka_round n metric mode true schedule
                     updateSidedParents s1) =
                st_num_components
                  (boruvka_round n metric mode false schedule
                     updateSidedParents s2))
    by (apply (f_equal st_num_components) in Hr; exact Hr).
  rewrite Hnc. destruct (_ <? _)%Z.
  - apply IH; auto.
    + apply (@round_inv n metric mode true schedule updateSidedParents);
        auto.
    + apply (@round_inv n metric mode false schedule updateSidedParents);
        auto.
  - simpl. f_equal. exact Hr.
Qed.

Lemma after_loop_without_cache s1 s2 :
  without_cache s1 = without_cache s2 ->
  object_of n (after_loop n mode ROOT_CHAIN_VALUE
                 computeParentsAndReorderEdges s1) =
  object_of n (after_loop n mode ROOT_CHAIN_VALUE
                 computeParentsAndReorderEdges s2).
Proof.
  intros He. destruct s1, s2. unfold without_cache in He. simpl in He.
  inversion He; subst; clear He.
  unfold after_loop, finalize_dendrogram, object_of. destruct mode.
  - reflexivity.
  - simpl. destruct (computeParentsAndReorderEdges _ _ _ _) as [[[es p] o] l].
    reflexivity.
Qed.
End Cache.

(** C5.  For every input, the constructor run with the lower-bound cache
    (the serial execution space) and run without it both return, and they
    return the same object: the same [edges], entry by entry, and the same
    dendrogram views. *)
Theorem C5_cache_does_not_change_result
    n euclid mode schedule ROOT_CHAIN_VALUE
    updateSidedParents computeParentsAndReorderEdges k :
  0 < n ->
  (forall i j, euclid i j = euclid j i) ->
  (forall i j, (0 <= euclid i j)%Z) ->
  (forall t, Permutation (schedule t) (seq 0 n)) ->
  exists obj log_on log_off,
    construct n euclid mode true schedule ROOT_CHAIN_VALUE
      updateSidedParents computeParentsAndReorderEdges k
    = Some (obj, log_on) /\
    construct n euclid mode false schedule ROOT_CHAIN_VALUE
      updateSidedParents computeParentsAndReorderEdges k
    = Some (obj, log_off).
Proof.
  intros Hpos Hsym Hnn Hsched.
  set (m := chosen_metric n euclid k).
  assert (Hmsym : forall i j, m i j = m j i)
    by (apply chosen_metric_sym, Hsym).
  assert (Hmnn : forall i j, (0 <= m i j)%Z)
    by (apply chosen_metric_nonneg, Hnn).
  destruct (@loop_run n m mode true schedule updateSidedParents
              Hmsym Hmnn Hsched Hpos (initial_object n) (chosen_log k)
              (initial_edges_length n)) as [T1 [_ [_ [Hl1 _]]]].
  destruct (@loop_run n m mode false schedule updateSidedParents
              Hmsym Hmnn Hsched Hpos (initial_object n) (chosen_log k)
              (initial_edges_length n)) as [T2 [_ [_ [Hl2 _]]]].
  assert (Heq :
    option_map without_cache
      (loop_with n m mode schedule updateSidedParents true (S n)
         (start n mode true (initial_object n) (chosen_log k))) =
    option_map without_cache
      (loop_with n m mode schedule updateSidedParents false (S n)
         (start n mode false (initial_object n) (chosen_log k)))).
  { apply loop_without_cache; auto; try reflexivity;
      apply init_inv; auto; apply initial_edges_length. }
  unfold loop_with, start in *. rewrite Hl1, Hl2 in Heq.
  cbn [option_map] in Heq.
  assert (Hw := f_equal (fun o => match o with
                                  | Some x => x
                                  | None => without_cache
                                              (boruvka_init n mode true
                                                 (initial_object n) [])
                                  end) Heq).
  cbv beta iota in Hw. clear Heq.
  pose proof (@after_loop_without_cache n mode ROOT_CHAIN_VALUE
                computeParentsAndReorderEdges _ _ Hw) as Hobj.
  eexists. eexists. eexists. split.
  - rewrite construct_unfold. unfold run_boruvka, doBoruvka. fold m.
    rewrite Hl1. fold (after_loop n mode ROOT_CHAIN_VALUE
                         computeParentsAndReorderEdges
                         (after n m mode true schedule updateSidedParents T1
                            (initial_object n) (chosen_log k))).
    reflexivity.
  - rewrite construct_unfold. unfold run_boruvka, doBoruvka. fold m.
    rewrite Hl2. fold (after_loop n mode ROOT_CHAIN_VALUE
                         computeParentsAndReorderEdges
                         (after n m mode false schedule updateSidedParents T2
                            (initial_object n) (chosen_log k))).
    rewrite <- Hobj. reflexivity.
Qed.

Lemma C5_witness :
  exists obj log_on log_off,
    construct 5 (line_distance [0; 3; 10; -5; -6]%Z) MST true
      (serial_schedule 5) (-1)%Z keep_sided_parents keep_edge_order 1
    = Some (obj, log_on) /\
    construct 5 (line_distance [0; 3; 10; -5; -6]%Z) MST false
      (serial_schedule 5) (-1)%Z keep_sided_parents keep_edge_order 1
    = Some (obj, log_off).
Proof.
  apply C5_cache_does_not_change_result.
  - lia.
  - apply line_distance_sym.
  - apply line_distance_nonneg.
  - apply serial_schedule_perm.
Defined.

(** On this input the cache does skip a traversal: in the second round, when
    the task of leaf 2 starts, its bound 7 exceeds the weight 5 already found
    for its component. *)
Example cache_skips_a_leaf :
  let m := line_distance [0; 3; 10; -5; -6]%Z in
  let s1 := rounds 5 MST true (serial_schedule 5) keep_sided_parents m
                   (chosen_log 1) 1 in
  let st := fold_left (fcnn_leaf 5 m (st_labels s1) (st_lower_bounds s1))
                      [0; 1] (repeat None 5, repeat None 5) in
  nth 2 (st_lower_bounds s1) 0%Z = 7%Z /\
  nth (label_of (st_labels s1) 2) (fst st) None = Some 5%Z /\
  fcnn_leaf 5 m (st_labels s1) (st_lower_bounds s1) st 2 = st.
Proof. vm_compute. repeat split; reflexivity. Qed.

(** ** The order of emission *)



Section Schedules.
Variable n : nat.
Variable metric : nat -> nat -> Z.
Variable mode : BoruvkaMode.
Variable use_lower_bounds : bool.
Variable schedule1 schedule2 : nat -> list nat.
Variable updateSidedParents :
  list nat -> list WeightedEdge -> list nat -> list Z -> nat -> nat -> list Z.

Hypothesis metric_sym : forall i j, metric i j = metric j i.
Hypothesis metric_nonneg : forall i j, (0 <= metric i j)%Z.
Hypothesis schedule1_perm : forall t, Permutation (schedule1 t) (seq 0 n).
Hypothesis schedule2_perm : forall t, Permutation (schedule2 t) (seq 0 n).
Hypothesis n_pos : 0 < n.



End Schedules.







(** * Further properties

    Properties of the driver beyond the claims, of the priority queue and of
    the accessibility traits. *)

(** ** The host bookkeeping of the loop *)

Lemma rounds_S n mode use_lower_bounds schedule updateSidedParents m log T :
  rounds n mode use_lower_bounds schedule updateSidedParents m log (S T) =
  boruvka_round n m mode use_lower_bounds schedule updateSidedParents
    (rounds n mode use_lower_bounds schedule updateSidedParents m log T).
Proof. reflexivity. Qed.

Lemma round_bookkeeping n m mode use_lower_bounds schedule updateSidedParents
    s :
  let s' := boruvka_round n m mode use_lower_bounds schedule
              updateSidedParents s in
  st_edge_offsets s' = st_edge_offsets s ++ [st_num_edges s'] /\
  st_edges_end s' = st_num_edges s' /\
  st_edges_start s' = st_edges_end s /\
  st_iterations s' = S (st_iterations s) /\
  st_num_components s' = (Z.of_nat n - Z.of_nat (st_num_edges s'))%Z.
Proof. cbv zeta. repeat split. Qed.

Lemma rounds_window n mode use_lower_bounds schedule updateSidedParents m log
    T :
  let s := rounds n mode use_lower_bounds schedule updateSidedParents m log in
  st_edges_end (s T) = st_num_edges (s T) /\
  st_edges_start (s T) = st_num_edges (s (T - 1)) /\
  st_iterations (s T) = T /\
  st_num_components (s T) = (Z.of_nat n - Z.of_nat (st_num_edges (s T)))%Z.
Proof.
  cbv zeta. induction T as [|T IH].
  - repeat split. simpl. lia.
  - rewrite rounds_S.
    destruct (round_bookkeeping n m mode use_lower_bounds schedule
                updateSidedParents
                (rounds n mode use_lower_bounds schedule updateSidedParents
                   m log T)) as [_ [H1 [H2 [H3 H4]]]].
    destruct IH as [I1 [I2 [I3 I4]]].
    rewrite H1, H2, H3, H4, I1, I3. replace (S T - 1) with T by lia.
    repeat split.
Qed.

(** X1.  The host vector [edge_offsets] is the history of the edge counter:
    after [T] rounds it holds the [T + 1] values the counter had before the
    first round and after each round, so it starts with 0 and ends with the
    current count; [edges_end] is its last entry and [edges_start] the one
    before, the slots of the edges the last round counted. *)
Theorem X1_edge_offsets_record_the_counter
    n mode use_lower_bounds schedule updateSidedParents m log T :
  let s := rounds n mode use_lower_bounds schedule updateSidedParents m log in
  st_edge_offsets (s T) = map (fun t => st_num_edges (s t)) (seq 0 (S T)) /\
  nth 0 (st_edge_offsets (s T)) 0 = 0 /\
  st_edges_end (s T) = nth T (st_edge_offsets (s T)) 0 /\
  st_edges_start (s T) = nth (T - 1) (st_edge_offsets (s T)) 0.
Proof.
  cbv zeta.
  assert (Hoff : forall T,
    st_edge_offsets
      (rounds n mode use_lower_bounds schedule updateSidedParents m log T) =
    map (fun t => st_num_edges
           (rounds n mode use_lower_bounds schedule updateSidedParents m
              log t)) (seq 0 (S T))).
  { clear T. induction T as [|T IH]; [reflexivity|].
    rewrite rounds_S.
    destruct (round_bookkeeping n m mode use_lower_bounds schedule
                updateSidedParents
                (rounds n mode use_lower_bounds schedule updateSidedParents
                   m log T)) as [H0 _].
    rewrite H0, IH, (seq_S (S T) 0), map_app. reflexivity. }
  destruct (rounds_window n mode use_lower_bounds schedule updateSidedParents
              m log T) as [H1 [H2 _]].
  assert (Hnth : forall t, t <= T ->
    nth t (st_edge_offsets
             (rounds n mode use_lower_bounds schedule updateSidedParents m
                log T)) 0 =
    st_num_edges
      (rounds n mode use_lower_bounds schedule updateSidedParents m log t)).
  { intros t Ht. rewrite Hoff.
    rewrite (nth_indep _ 0
               (st_num_edges
                  (rounds n mode use_lower_bounds schedule updateSidedParents
                     m log 0)))
      by (rewrite length_map, length_seq; lia).
    rewrite (map_nth (fun t => st_num_edges
               (rounds n mode use_lower_bounds schedule updateSidedParents m
                  log t))).
    rewrite seq_nth by lia. reflexivity. }
  split; [apply Hoff|]. split; [rewrite Hnth by lia; reflexivity|].
  split; [rewrite Hnth by lia; exact H1|].
  rewrite Hnth by lia. exact H2.
Qed.

(** ** The sequence of calls *)

(** What round [i] appends to the call log when the edge counter stood at
    [counted t] after [t] rounds. *)
Definition round_trace (n : nat) (mode : BoruvkaMode)
    (use_lower_bounds : bool) (counted : nat -> nat) (i : nat) : list Event :=
  [EvIteration i (Z.of_nat n - Z.of_nat (counted (i - 1)));
   EvReduceLabels; EvResetSharedRadii;
   EvFindComponentNearestNeighbors; EvRetrieveEdges] ++
  (if use_lower_bounds then [EvUpdateLowerBounds] else []) ++
  [EvUnidirectionalEdges] ++
  match mode with
  | HDBSCAN =>
      [EvBidirectionalEdges;
       if 1 <? i
       then EvUpdateSidedParents i (counted (i - 2)) (counted (i - 1))
       else EvAssignVertexParents i]
  | MST => []
  end ++
  [EvUpdateLabels].

(** What [doBoruvka] appends after a loop of [T] rounds. *)
Definition closing_trace (mode : BoruvkaMode) (counted : nat -> nat)
    (T : nat) : list Event :=
  match mode with
  | HDBSCAN =>
      [EvRootChain (counted (T - 1)) (counted T);
       EvComputeParentsAndReorderEdges; EvAssignParentHeights]
  | MST => []
  end.

Lemma flat_map_seq_shift A (f : nat -> list A) a len :
  flat_map f (seq (S a) len) = flat_map (fun t => f (S t)) (seq a len).
Proof.
  revert a. induction len as [|len IH]; intros a; simpl; [reflexivity|].
  rewrite IH. reflexivity.
Qed.

Lemma after_loop_log n mode ROOT cPRE s :
  st_log (after_loop n mode ROOT cPRE s) =
  st_log s ++
  match mode with
  | HDBSCAN =>
      [EvRootChain (st_edges_start s) (st_edges_end s);
       EvComputeParentsAndReorderEdges; EvAssignParentHeights]
  | MST => []
  end.
Proof.
  unfold after_loop, finalize_dendrogram. destruct mode.
  - simpl. rewrite app_nil_r. reflexivity.
  - destruct (cPRE _ _ _ _) as [[[es p] o] l].
    cbn [st_log assign_root_chain release_scratch st_edges_start st_edges_end].
    rewrite <- app_assoc. reflexivity.
Qed.

Lemma events_of_round_trace n mode use_lower_bounds schedule
    updateSidedParents m log t :
  let s := rounds n mode use_lower_bounds schedule updateSidedParents m log in
  events_of_round mode use_lower_bounds (s t) =
  round_trace n mode use_lower_bounds (fun t => st_num_edges (s t)) (S t).
Proof.
  cbv zeta.
  destruct (rounds_window n mode use_lower_bounds schedule updateSidedParents
              m log t) as [H1 [H2 [H3 H4]]].
  unfold events_of_round, round_trace.
  rewrite H1, H2, H3, H4.
  replace (S t - 1) with t by lia. replace (S t - 2) with (t - 1) by lia.
  reflexivity.
Qed.

Lemma rounds_trace n mode use_lower_bounds schedule updateSidedParents m log
    T :
  let s := rounds n mode use_lower_bounds schedule updateSidedParents m log in
  st_log (s T) =
  log ++ [EvFindParents] ++
  flat_map (round_trace n mode use_lower_bounds
              (fun t => st_num_edges (s t))) (seq 1 T).
Proof.
  cbv zeta. unfold rounds at 1. unfold after.
  change (round n m mode use_lower_bounds schedule updateSidedParents)
    with (round' n m mode use_lower_bounds schedule updateSidedParents).
  rewrite rounds_log. unfold start. cbn [st_log boruvka_init].
  rewrite <- app_assoc. f_equal. f_equal.
  rewrite flat_map_seq_shift. apply flat_map_ext. intros t.
  apply (events_of_round_trace n mode use_lower_bounds schedule
           updateSidedParents m log t).
Qed.

(** X2.  The calls of the constructor, in their order: the tree, for
    [k > 1] the core distances, [doBoruvka] with [findParents]; then for
    each round [i = 1 .. T] the region named after [i] and the number of
    components left, [n] minus the edges counted before the round,
    [reduceLabels], the reset of the radii, the search, [retrieveEdges],
    [updateLowerBounds] when the cache is on, the emitting pass, in HDBSCAN
    mode the second pass and [assignVertexParents] in round 1 or
    [updateSidedParents] on the slots of the round before in a later round,
    and the update of the labels; after the loop, in HDBSCAN mode only, the
    root chain on the slots of round [T], [computeParentsAndReorderEdges]
    and the heights; last [finalizeEdges]. *)
Theorem X2_call_sequence
    n euclid mode use_lower_bounds schedule ROOT_CHAIN_VALUE
    updateSidedParents computeParentsAndReorderEdges k :
  0 < n ->
  (forall i j, euclid i j = euclid j i) ->
  (forall i j, (0 <= euclid i j)%Z) ->
  (forall t, Permutation (schedule t) (seq 0 n)) ->
  let s := rounds n mode use_lower_bounds schedule updateSidedParents
                  (chosen_metric n euclid k) (chosen_log k) in
  let counted t := st_num_edges (s t) in
  exists T obj log, 1 <= T /\
    construct n euclid mode use_lower_bounds schedule ROOT_CHAIN_VALUE
      updateSidedParents computeParentsAndReorderEdges k = Some (obj, log) /\
    log =
      chosen_log k ++ [EvFindParents] ++
      flat_map (round_trace n mode use_lower_bounds counted) (seq 1 T) ++
      closing_trace mode counted T ++ [EvFinalizeEdges].
Proof.
  intros Hpos Hsym Hnn Hsched s counted.
  destruct (@construct_spec n euclid mode use_lower_bounds schedule
              ROOT_CHAIN_VALUE updateSidedParents
              computeParentsAndReorderEdges Hsched Hpos Hsym Hnn k)
    as [T [HT [_ [Hc _]]]].
  cbv zeta in Hc. fold s in Hc.
  exists T. eexists. eexists. split; [exact HT|]. split; [exact Hc|].
  rewrite after_loop_log.
  destruct (rounds_window n mode use_lower_bounds schedule updateSidedParents
              (chosen_metric n euclid k) (chosen_log k) T) as [H1 [H2 _]].
  fold s in H1, H2. rewrite H1, H2.
  unfold s at 1. rewrite rounds_trace. fold s. fold counted.
  unfold closing_trace. rewrite <- !app_assoc. simpl.
  destruct mode; reflexivity.
Qed.

Lemma X2_witness :
  let s := rounds 4 HDBSCAN true (serial_schedule 4) keep_sided_parents
                  (chosen_metric 4 (line_distance [0; 1; 5; 7]%Z) 2)
                  (chosen_log 2) in
  let counted t := st_num_edges (s t) in
  exists T obj log, 1 <= T /\
    construct 4 (line_distance [0; 1; 5; 7]%Z) HDBSCAN true
      (serial_schedule 4) (-1)%Z keep_sided_parents keep_edge_order 2 =
    Some (obj, log) /\
    log =
      chosen_log 2 ++ [EvFindParents] ++
      flat_map (round_trace 4 HDBSCAN true counted) (seq 1 T) ++
      closing_trace HDBSCAN counted T ++ [EvFinalizeEdges].
Proof.
  apply (@X2_call_sequence 4 (line_distance [0; 1; 5; 7]%Z) HDBSCAN true
           (serial_schedule 4) (-1)%Z keep_sided_parents keep_edge_order 2).
  - lia.
  - apply line_distance_sym.
  - apply line_distance_nonneg.
  - apply serial_schedule_perm.
Defined.

(** ** The view of the lower bounds *)

Lemma updateLowerBounds_length labels out lower_bounds :
  length (updateLowerBounds labels out lower_bounds) = length lower_bounds.
Proof. unfold updateLowerBounds. rewrite length_map, length_seq. reflexivity. Qed.

(** X3.  The view [lower_bounds] exists only when the cache is switched on:
    it then has [n] entries before and after every round; otherwise it has
    none at any time and [updateLowerBounds] is never called. *)
Theorem X3_lower_bounds_only_with_cache
    n mode use_lower_bounds schedule updateSidedParents m k T :
  let s := rounds n mode use_lower_bounds schedule updateSidedParents m
                  (chosen_log k) in
  length (st_lower_bounds (s T)) = (if use_lower_bounds then n else 0) /\
  (use_lower_bounds = false -> ~ In EvUpdateLowerBounds (st_log (s T))).
Proof.
  cbv zeta. split.
  - induction T as [|T IH].
    + simpl. destruct use_lower_bounds; [apply repeat_length|reflexivity].
    + rewrite rounds_S.
      set (s := rounds n mode use_lower_bounds schedule updateSidedParents m
                  (chosen_log k) T) in *.
      unfold boruvka_round. cbn [st_lower_bounds].
      destruct use_lower_bounds; [|exact IH].
      rewrite updateLowerBounds_length. exact IH.
  - intros Hoff Hin. rewrite rounds_trace in Hin. subst use_lower_bounds.
    apply in_app_or in Hin. destruct Hin as [Hin|Hin].
    + unfold chosen_log in Hin. destruct (1 <? k)%Z; simpl in Hin;
        intuition discriminate.
    + simpl in Hin. destruct Hin as [Hin|Hin]; [discriminate|].
      apply in_flat_map in Hin. destruct Hin as [i [_ Hin]].
      unfold round_trace in Hin. simpl in Hin.
      destruct mode; simpl in Hin; [intuition discriminate|].
      destruct (1 <? i); intuition discriminate.
Qed.

(** ** A single point *)

Lemma no_emission_without_edges mode labels order : forall st,
  fold_left (emit_one mode labels [None]) order st = st.
Proof.
  induction order as [|i order IH]; intros st; [reflexivity|].
  simpl. rewrite <- (IH st) at 2. f_equal.
  unfold emit_one, emits.
  destruct i as [|[|i]]; simpl; rewrite ?andb_false_r; reflexivity.
Qed.

Definition is_iteration (e : Event) : bool :=
  match e with EvIteration _ _ => true | _ => false end.

(** X4.  In MST mode, for one point, the body of the loop still runs, once:
    the region of round 1 is entered with one component, no edge is found,
    and the constructor returns an object whose five views are empty,
    whatever the distance, [k], the cache and the order of the emitting
    pass. *)
Theorem X4_single_point
    euclid use_lower_bounds schedule ROOT_CHAIN_VALUE
    updateSidedParents computeParentsAndReorderEdges k :
  exists log,
    construct 1 euclid MST use_lower_bounds schedule ROOT_CHAIN_VALUE
      updateSidedParents computeParentsAndReorderEdges k =
    Some (mkMinimumSpanningTree [] [] [] [] [], log) /\
    filter is_iteration log = [EvIteration 1 1].
Proof.
  rewrite construct_unfold. unfold run_boruvka, doBoruvka.
  set (m := chosen_metric 1 euclid k).
  assert (Hr : exists s,
    boruvka_round 1 m MST use_lower_bounds schedule updateSidedParents
      (boruvka_init 1 MST use_lower_bounds (initial_object 1)
         (chosen_log k)) = s /\
    st_num_components s = 1%Z /\
    st_dendrogram_parents s = [] /\
    st_dendrogram_parent_heights s = [] /\
    st_chain_offsets s = [] /\ st_chain_levels s = [] /\
    st_log s = (chosen_log k ++ [EvFindParents]) ++
               round_trace 1 MST use_lower_bounds (fun _ => 0) 1).
  { eexists. split; [reflexivity|].
    unfold boruvka_round, update_unidirectional_edges.
    cbn [st_num_components st_dendrogram_parent_heights st_log st_labels
         st_lower_bounds st_edges st_edges_mapping st_num_edges
         st_iterations st_edges_start st_edges_end boruvka_init
         st_dendrogram_parents st_chain_offsets st_chain_levels].
    assert (Hf : forall lb,
      snd (FindComponentNearestNeighbors 1 m (seq 0 1) (repeat None 1)
             (repeat None 1) lb) = [None]).
    { intros lb. unfold FindComponentNearestNeighbors, fcnn_leaf. simpl.
      destruct (_ && _); reflexivity. }
    rewrite Hf, no_emission_without_edges. simpl.
    repeat split. }
  destruct Hr as [s [Hs [Hnc [Hp [Hh [Ho [Hl Hlog]]]]]]].
  cbn [boruvka_loop]. rewrite Hs, Hnc. cbn [Z.ltb Z.compare Pos.compare
    Pos.compare_cont].
  eexists. split.
  - unfold object_of, finalizeEdges.
    cbn [st_dendrogram_parents st_dendrogram_parent_heights st_chain_offsets
         st_chain_levels release_scratch Nat.sub firstn].
    rewrite Hp, Hh, Ho, Hl. reflexivity.
  - cbn [st_log release_scratch].
    rewrite Hlog, !filter_app. unfold chosen_log.
    destruct (1 <? k)%Z, use_lower_bounds; reflexivity.
Qed.

(** ** The accessibility traits *)

(** X9.  [is_accessible_from_host<View>] has the value [true] exactly for a
    view whose memory space Kokkos reports accessible from
    [Kokkos::HostSpace].  It never has the value [false] when
    [Kokkos::HostSpace] is not an execution space: for a memory space that is
    not accessible the primary template is taken with [Kokkos::HostSpace] as
    its [ExecutionSpace], and its assertion on that argument rejects the
    instantiation. *)
Theorem X9_host_accessibility_is_true_or_rejected
    (Space : Type) (HostSpace : Space)
    (is_memory_space is_execution_space : Space -> bool)
    (accessible : Space -> Space -> bool)
    (View : Type) (is_view : View -> bool) (memory_space : View -> Space)
    (v : View) :
  is_execution_space HostSpace = false ->
  let trait := is_accessible_from_host HostSpace is_memory_space
                 is_execution_space accessible is_view memory_space v in
  (trait = Some true <->
   is_view v = true /\ accessible HostSpace (memory_space v) = true) /\
  (trait = None <->
   is_view v = false \/ accessible HostSpace (memory_space v) = false) /\
  trait <> Some false.
Proof.
  intros Hh trait. unfold trait, is_accessible_from_host, is_accessible_from.
  rewrite Hh, andb_false_r.
  destruct (accessible HostSpace (memory_space v)), (is_view v);
    repeat split; intros; try discriminate; try tauto;
    intuition discriminate.
Qed.

Lemma X9_witness :
  let trait := is_accessible_from_host SampleHostSpace sample_is_memory_space
                 sample_is_execution_space sample_accessible
                 (fun _ : SampleSpace => true) (fun v => v)
                 SampleDeviceSpace in
  (trait = Some true <->
   true = true /\ sample_accessible SampleHostSpace SampleDeviceSpace = true) /\
  (trait = None <->
   true = false \/ sample_accessible SampleHostSpace SampleDeviceSpace = false) /\
  trait <> Some false.
Proof.
  apply (X9_host_accessibility_is_true_or_rejected SampleHostSpace
           sample_is_memory_space sample_is_execution_space sample_accessible
           (fun _ : SampleSpace => true) (fun v => v) SampleDeviceSpace).
  reflexivity.
Defined.

(** ** The priority queue *)

Unset Implicit Arguments.

(** [Compare] is a strict weak order: nothing is ordered before itself, and
    "not before" is transitive. *)
Definition strict_weak_order {T} (compare : T -> T -> bool) : Prop :=
  (forall a, compare a a = false) /\
  (forall a b c,
     compare a b = false -> compare b c = false -> compare a c = false).

(** What the class needs of the primitives of misc/ArborX_Heap.hpp: each
    keeps the entries of its range; [pushHeap] sifts the last entry up into
    the heap before it; [popHeap] takes the first entry of a heap to the
    back and leaves a heap before it; [bubbleDown] from the root over the
    whole length puts [val] in the place of the first entry of a heap and
    sifts it down. *)
Definition heap_primitives {T} (compare : T -> T -> bool)
    (pushHeap popHeap : list T -> list T)
    (bubbleDown : list T -> nat -> nat -> T -> list T) : Prop :=
  (forall c x, isHeap compare c = true ->
     Permutation (pushHeap (c ++ [x])) (c ++ [x]) /\
     isHeap compare (pushHeap (c ++ [x])) = true) /\
  (forall x c, isHeap compare (x :: c) = true ->
     exists c', popHeap (x :: c) = c' ++ [x] /\
                Permutation c' c /\ isHeap compare c' = true) /\
  (forall x c v, isHeap compare (x :: c) = true ->
     Permutation (bubbleDown (x :: c) 0 (S (length c)) v) (v :: c) /\
     isHeap compare (bubbleDown (x :: c) 0 (S (length c)) v) = true).

Lemma isHeap_spec T (compare : T -> T -> bool) c :
  isHeap compare c = true <->
  forall i p x, 1 <= i -> nth_error c ((i - 1) / 2) = Some p ->
                nth_error c i = Some x -> compare p x = false.
Proof.
  unfold isHeap. rewrite forallb_forall. split.
  - intros H i p x Hi Hp Hx.
    assert (Hlt : i < length c) by (apply nth_error_Some; congruence).
    specialize (H i). rewrite Hp, Hx in H.
    apply negb_true_iff, H, in_seq. lia.
  - intros H i Hi. apply in_seq in Hi.
    destruct (nth_error c ((i - 1) / 2)) as [p|] eqn:Hp; auto.
    destruct (nth_error c i) as [x|] eqn:Hx; auto.
    apply negb_true_iff. apply (H i p x); auto. lia.
Qed.

Lemma parent_before i : (S i - 1) / 2 < S i.
Proof.
  replace (S i - 1) with i by lia.
  pose proof (Nat.Div0.div_le_upper_bound i 2 i). lia.
Qed.

Lemma heap_root T (compare : T -> T -> bool) c x :
  strict_weak_order compare ->
  isHeap compare (x :: c) = true ->
  forall i y, nth_error (x :: c) i = Some y -> compare x y = false.
Proof.
  intros [Hirr Htr] H0. pose proof (proj1 (isHeap_spec _ _ _) H0) as H.
  clear H0.
  induction i as [i IH] using lt_wf_ind. intros y Hy.
  destruct i as [|i].
  - simpl in Hy. inversion Hy; subst. apply Hirr.
  - pose proof (parent_before i) as Hp.
    destruct (nth_error (x :: c) ((S i - 1) / 2)) as [p|] eqn:Hpe.
    + apply Htr with p.
      * eapply IH; eauto.
      * apply (H (S i) p y); auto. lia.
    + assert (Hlt : S i < length (x :: c))
        by (apply nth_error_Some; congruence).
      apply nth_error_None in Hpe. lia.
Qed.

Lemma heap_top T (compare : T -> T -> bool) (q : PriorityQueue T) x y :
  strict_weak_order compare ->
  isHeap compare (_c q) = true -> top q = Some x -> In y (_c q) ->
  compare x y = false.
Proof.
  destruct q as [c]. unfold top. simpl. intros Ho H Hx Hy.
  destruct c as [|x' c]; [discriminate|]. simpl in Hx. inversion Hx; subst.
  apply In_nth_error in Hy. destruct Hy as [i Hi].
  eapply heap_root; eauto.
Qed.

(** A range in descending order is a heap. *)
Lemma sorted_nth_error T (R : T -> T -> Prop) c :
  StronglySorted R c ->
  forall j i a b, j < i -> nth_error c j = Some a -> nth_error c i = Some b ->
                  R a b.
Proof.
  induction 1 as [|h t Hs IH Hh]; intros j i a b Hji Ha Hb.
  - destruct j; discriminate.
  - destruct i as [|i]; [lia|]. simpl in Hb.
    destruct j as [|j].
    + simpl in Ha. inversion Ha; subst.
      rewrite Forall_forall in Hh. apply Hh. eapply nth_error_In; eauto.
    + simpl in Ha. apply (IH j i); auto. lia.
Qed.

Lemma sorted_isHeap T (compare : T -> T -> bool) c :
  StronglySorted (fun a b => compare a b = false) c ->
  isHeap compare c = true.
Proof.
  intros Hs. apply isHeap_spec. intros i p x Hi Hp Hx.
  destruct i as [|i]; [lia|].
  apply (sorted_nth_error _ _ _ Hs ((S i - 1) / 2) (S i)); auto.
  apply parent_before.
Qed.

Section QueueFacts.
Variable T : Type.
Variable compare : T -> T -> bool.
Variable pushHeap : list T -> list T.
Variable popHeap : list T -> list T.
Variable bubbleDown : list T -> nat -> nat -> T -> list T.
Hypothesis primitives : heap_primitives compare pushHeap popHeap bubbleDown.

Lemma push_heap value (q : PriorityQueue T) :
  isHeap compare (_c q) = true ->
  isHeap compare (_c (push pushHeap value q)) = true /\
  Permutation (_c (push pushHeap value q)) (value :: _c q).
Proof.
  intros H. destruct primitives as [Hpush _].
  destruct (Hpush _ value H) as [Hp Hh]. split; [exact Hh|].
  simpl. rewrite Hp. apply Permutation_sym, Permutation_cons_append.
Qed.

Lemma pop_heap x c :
  isHeap compare (x :: c) = true ->
  isHeap compare (_c (pop popHeap (mkPriorityQueue (x :: c)))) = true /\
  Permutation (_c (pop popHeap (mkPriorityQueue (x :: c)))) c.
Proof.
  intros H. destruct primitives as [_ [Hpop _]].
  destruct (Hpop _ _ H) as [c' [He [Hp Hh]]].
  unfold pop. simpl. rewrite He, removelast_last. auto.
Qed.

Lemma popPush_heap x c v :
  isHeap compare (x :: c) = true ->
  exists q1, popPush bubbleDown v (mkPriorityQueue (x :: c)) = Some q1 /\
             isHeap compare (_c q1) = true /\
             Permutation (_c q1) (v :: c).
Proof.
  intros H. destruct primitives as [_ [_ Hbd]].
  destruct (Hbd _ _ v H) as [Hp Hh].
  eexists. split; [reflexivity|]. simpl. auto.
Qed.

Lemma step_heap (q : PriorityQueue T) o q' :
  isHeap compare (_c q) = true ->
  step pushHeap popHeap bubbleDown q o = Some q' ->
  isHeap compare (_c q') = true /\
  size q' + (if is_pop o then 1 else 0) =
  size q + (if is_push o then 1 else 0).
Proof.
  intros H Hs. destruct o as [v| |v]; simpl in Hs.
  - inversion Hs; subst. destruct (push_heap v _ H) as [Hh Hp].
    split; [exact Hh|]. unfold size. rewrite (Permutation_length Hp).
    simpl. lia.
  - destruct q as [[|x c]]; [discriminate|]. simpl in Hs.
    inversion Hs; subst. destruct (pop_heap _ _ H) as [Hh Hp].
    split; [exact Hh|]. unfold size. rewrite (Permutation_length Hp).
    simpl. lia.
  - destruct q as [[|x c]]; [discriminate|].
    destruct (popPush_heap _ _ v H) as [q1 [He [Hh Hp]]].
    rewrite He in Hs. inversion Hs; subst. split; [exact Hh|].
    unfold size. rewrite (Permutation_length Hp). simpl. lia.
Qed.

Lemma run_heap ops : forall (q q' : PriorityQueue T),
  isHeap compare (_c q) = true ->
  run pushHeap popHeap bubbleDown ops q = Some q' ->
  isHeap compare (_c q') = true /\
  size q' + length (filter (@is_pop T) ops) =
  size q + length (filter (@is_push T) ops).
Proof.
  induction ops as [|o ops IH]; intros q q' H Hr.
  - simpl in Hr. inversion Hr; subst. simpl. auto.
  - simpl in Hr.
    destruct (step pushHeap popHeap bubbleDown q o) as [q1|] eqn:Hs;
      [|discriminate].
    destruct (step_heap _ _ _ H Hs) as [H1 Hsz].
    destruct (IH _ _ H1 Hr) as [H2 Hsz2]. split; [exact H2|].
    simpl. destruct o; simpl in *; lia.
Qed.

Lemma pushes_heap l : forall (q : PriorityQueue T),
  isHeap compare (_c q) = true ->
  isHeap compare (_c (fold_left (fun q x => push pushHeap x q) l q)) = true /\
  Permutation (_c (fold_left (fun q x => push pushHeap x q) l q))
              (l ++ _c q).
Proof.
  induction l as [|x l IH]; intros q H; simpl; auto.
  destruct (push_heap x _ H) as [Hh Hp].
  destruct (IH _ Hh) as [H1 H2]. split; [exact H1|].
  rewrite H2, Hp. apply Permutation_sym, Permutation_middle.
Qed.

Hypothesis order : strict_weak_order compare.

Lemma drain_heap fuel : forall (q : PriorityQueue T),
  isHeap compare (_c q) = true -> size q <= fuel ->
  Permutation (drain popHeap fuel q) (_c q) /\
  StronglySorted (fun a b => compare a b = false) (drain popHeap fuel q).
Proof.
  induction fuel as [|f IH]; intros [c] H Hsz; unfold size in Hsz;
    simpl in Hsz.
  - destruct c; [|simpl in Hsz; lia]. simpl. split; constructor.
  - destruct c as [|x c]; [simpl; split; constructor|].
    change (drain popHeap (S f) (mkPriorityQueue (x :: c)))
      with (x :: drain popHeap f (pop popHeap (mkPriorityQueue (x :: c)))).
    destruct (pop_heap _ _ H) as [Hh Hp].
    destruct (IH _ Hh) as [Hd Hs].
    { unfold size. rewrite (Permutation_length Hp). simpl in Hsz. lia. }
    split.
    + simpl. constructor. rewrite Hd. exact Hp.
    + constructor; [exact Hs|]. apply Forall_forall. intros y Hy.
      apply (Permutation_in _ Hd) in Hy. apply (Permutation_in _ Hp) in Hy.
      apply (heap_top _ compare (mkPriorityQueue (x :: c)) x y order H);
        [reflexivity|].
      right. exact Hy.
Qed.
End QueueFacts.

Lemma ltb_strict_weak_order : strict_weak_order Nat.ltb.
Proof.
  split.
  - intros a. apply Nat.ltb_irrefl.
  - intros a b c H1 H2. apply Nat.ltb_ge in H1, H2. apply Nat.ltb_ge. lia.
Qed.

Lemma descending_perm c : Permutation (descending c) c.
Proof. apply sort_by_perm. Qed.

Lemma descending_isHeap c : isHeap Nat.ltb (descending c) = true.
Proof.
  apply sorted_isHeap.
  apply (@sort_by_ordered nat (fun a b => b <? a)).
  - intros x y H. apply Nat.ltb_lt in H. apply Nat.ltb_ge. lia.
  - intros x y z H1 H2. apply Nat.ltb_ge in H1, H2. apply Nat.ltb_ge. lia.
Qed.

Lemma sorting_primitives :
  heap_primitives Nat.ltb sorting_pushHeap sorting_popHeap sorting_bubbleDown.
Proof.
  split; [|split].
  - intros c x _. split; [apply descending_perm|apply descending_isHeap].
  - intros x c _. exists (descending c). split; [reflexivity|].
    split; [apply descending_perm|apply descending_isHeap].
  - intros x c v _. split; [apply descending_perm|apply descending_isHeap].
Qed.

(** X5.  In a queue whose container is a heap, as the constructor asserts,
    and under a strict weak order, no entry of the queue is ordered after
    the one [top()] returns. *)
Theorem X5_top_is_a_greatest_entry
    T (compare : T -> T -> bool) (q : PriorityQueue T) x :
  strict_weak_order compare ->
  isHeap compare (_c q) = true ->
  top q = Some x ->
  Forall (fun y => compare x y = false) (_c q).
Proof.
  intros Ho H Hx. apply Forall_forall. intros y Hy.
  apply (heap_top T compare q x y Ho H Hx Hy).
Qed.

Lemma X5_witness :
  Forall (fun y => (9 <? y) = false) (_c (mkPriorityQueue [9; 4; 7; 1; 3])).
Proof.
  apply (X5_top_is_a_greatest_entry nat Nat.ltb
           (mkPriorityQueue [9; 4; 7; 1; 3]) 9).
  - apply ltb_strict_weak_order.
  - reflexivity.
  - reflexivity.
Defined.

(** X6.  Whatever sequence of [push], [pop] and [popPush] is applied to an
    empty queue without failing, the container is a heap afterwards, so that
    it passes the assertion of the constructor from a container, and the
    size of the queue is the number of [push] less the number of [pop];
    [popPush] leaves the size as it is.  The primitives are taken to meet
    [heap_primitives]. *)
Theorem X6_modifiers_keep_the_heap
    T (compare : T -> T -> bool) pushHeap popHeap bubbleDown ops
    (q : PriorityQueue T) :
  heap_primitives compare pushHeap popHeap bubbleDown ->
  run pushHeap popHeap bubbleDown ops (emptyQueue T) = Some q ->
  isHeap compare (_c q) = true /\
  fromContainer compare (data q) = Some q /\
  size q + length (filter (@is_pop T) ops) =
  length (filter (@is_push T) ops).
Proof.
  intros Hp Hr.
  destruct (run_heap T compare pushHeap popHeap bubbleDown Hp ops
              (emptyQueue T) q eq_refl Hr) as [Hh Hsz].
  split; [exact Hh|]. split; [|exact Hsz].
  unfold fromContainer, data. rewrite Hh, orb_true_r. destruct q; reflexivity.
Qed.

Lemma X6_witness :
  let q := mkPriorityQueue [8; 2; 1] in
  isHeap Nat.ltb (_c q) = true /\
  fromContainer Nat.ltb (data q) = Some q /\
  size q + length (filter (@is_pop nat)
                     [OpPush 5; OpPush 9; OpPush 2; OpPop nat; OpPush 1;
                      OpPopPush 8]) =
  length (filter (@is_push nat)
            [OpPush 5; OpPush 9; OpPush 2; OpPop nat; OpPush 1; OpPopPush 8]).
Proof.
  apply (X6_modifiers_keep_the_heap nat Nat.ltb sorting_pushHeap
           sorting_popHeap sorting_bubbleDown
           [OpPush 5; OpPush 9; OpPush 2; OpPop nat; OpPush 1; OpPopPush 8]
           (mkPriorityQueue [8; 2; 1])).
  - apply sorting_primitives.
  - reflexivity.
Defined.

(** X7.  Pushing the entries of a list on an empty queue and then taking
    [top()] and [pop()] until the queue is empty returns the entries of the
    list, each as often as it occurs, in descending order: no entry is
    ordered before one that comes after it.  The primitives are taken to
    meet [heap_primitives] and [Compare] to be a strict weak order. *)
Theorem X7_draining_sorts
    T (compare : T -> T -> bool) pushHeap popHeap bubbleDown l :
  strict_weak_order compare ->
  heap_primitives compare pushHeap popHeap bubbleDown ->
  let q := fold_left (fun q x => push pushHeap x q) l (emptyQueue T) in
  size q = length l /\
  Permutation (drain popHeap (length l) q) l /\
  StronglySorted (fun a b => compare a b = false)
                 (drain popHeap (length l) q).
Proof.
  intros Ho Hp q.
  destruct (pushes_heap T compare pushHeap popHeap bubbleDown Hp l
              (emptyQueue T) eq_refl) as [Hh Hperm].
  fold q in Hh, Hperm. simpl in Hperm. rewrite app_nil_r in Hperm.
  assert (Hsz : size q = length l) by (apply Permutation_length, Hperm).
  destruct (drain_heap T compare pushHeap popHeap bubbleDown Hp Ho (length l)
              q Hh) as [Hd Hs]; [lia|].
  split; [exact Hsz|]. split; [|exact Hs].
  rewrite Hd. exact Hperm.
Qed.

Lemma X7_witness :
  let q := fold_left (fun q x => push sorting_pushHeap x q) [3; 1; 4; 1; 5]
                     (emptyQueue nat) in
  size q = length [3; 1; 4; 1; 5] /\
  Permutation (drain sorting_popHeap (length [3; 1; 4; 1; 5]) q)
              [3; 1; 4; 1; 5] /\
  StronglySorted (fun a b => (a <? b) = false)
                 (drain sorting_popHeap (length [3; 1; 4; 1; 5]) q).
Proof.
  apply (X7_draining_sorts nat Nat.ltb sorting_pushHeap sorting_popHeap
           sorting_bubbleDown [3; 1; 4; 1; 5]).
  - apply ltb_strict_weak_order.
  - apply sorting_primitives.
Defined.

(** X8.  On a queue that is not empty, [popPush(v)] does what [pop()]
    followed by [push(v)] does: both leave a heap with the same entries, the
    old top being replaced by [v], of the size the queue had, and the tops
    of the two results are equivalent in the order.  The primitives are
    taken to meet [heap_primitives] and [Compare] to be a strict weak
    order. *)
Theorem X8_popPush_is_pop_then_push
    T (compare : T -> T -> bool) pushHeap popHeap bubbleDown
    (q : PriorityQueue T) v :
  strict_weak_order compare ->
  heap_primitives compare pushHeap popHeap bubbleDown ->
  isHeap compare (_c q) = true ->
  empty q = false ->
  let q2 := push pushHeap v (pop popHeap q) in
  exists q1 x t1 t2,
    popPush bubbleDown v q = Some q1 /\
    top q = Some x /\
    Permutation (x :: _c q1) (v :: _c q) /\
    Permutation (_c q1) (_c q2) /\
    isHeap compare (_c q1) = true /\
    isHeap compare (_c q2) = true /\
    size q1 = size q /\ size q2 = size q /\
    top q1 = Some t1 /\ top q2 = Some t2 /\
    compare t1 t2 = false /\ compare t2 t1 = false.
Proof.
  intros Ho Hp H Hne q2. destruct q as [[|x c]]; [discriminate|].
  destruct (popPush_heap T compare pushHeap popHeap bubbleDown Hp x c v H)
    as [q1 [He [Hh1 Hp1]]].
  destruct (pop_heap T compare pushHeap popHeap bubbleDown Hp x c H)
    as [Hh Hpp].
  destruct (push_heap T compare pushHeap popHeap bubbleDown Hp v _ Hh)
    as [Hh2 Hp2].
  fold q2 in Hh2, Hp2.
  assert (Hp2' : Permutation (_c q2) (v :: c))
    by (rewrite Hp2; constructor; exact Hpp).
  assert (H12 : Permutation (_c q1) (_c q2))
    by (rewrite Hp1, Hp2'; reflexivity).
  destruct (top q1) as [t1|] eqn:Ht1.
  2:{ unfold top in Ht1. destruct (_c q1);
        [apply Permutation_nil in Hp1; discriminate|discriminate]. }
  destruct (top q2) as [t2|] eqn:Ht2.
  2:{ unfold top in Ht2. destruct (_c q2);
        [apply Permutation_nil in Hp2'; discriminate|discriminate]. }
  exists q1, x, t1, t2.
  split; [exact He|]. split; [reflexivity|].
  split; [simpl; rewrite Hp1; apply perm_swap|].
  split; [exact H12|]. split; [exact Hh1|]. split; [exact Hh2|].
  split; [unfold size; rewrite (Permutation_length Hp1); reflexivity|].
  split; [unfold size; rewrite (Permutation_length Hp2'); reflexivity|].
  split; [exact Ht1|]. split; [reflexivity|].
  assert (Hin1 : In t1 (_c q1))
    by (unfold top in Ht1; destruct (_c q1); [discriminate|];
        simpl in Ht1; inversion Ht1; left; reflexivity).
  assert (Hin2 : In t2 (_c q2))
    by (unfold top in Ht2; destruct (_c q2); [discriminate|];
        simpl in Ht2; inversion Ht2; left; reflexivity).
  split.
  - apply (heap_top T compare q1 t1 t2 Ho Hh1 Ht1).
    apply (Permutation_in _ (Permutation_sym H12)), Hin2.
  - apply (heap_top T compare q2 t2 t1 Ho Hh2 Ht2).
    apply (Permutation_in _ H12), Hin1.
Qed.

Lemma X8_witness :
  let q := mkPriorityQueue [9; 4; 7; 1; 3] in
  let q2 := push sorting_pushHeap 5 (pop sorting_popHeap q) in
  exists q1 x t1 t2,
    popPush sorting_bubbleDown 5 q = Some q1 /\
    top q = Some x /\
    Permutation (x :: _c q1) (5 :: _c q) /\
    Permutation (_c q1) (_c q2) /\
    isHeap Nat.ltb (_c q1) = true /\
    isHeap Nat.ltb (_c q2) = true /\
    size q1 = size q /\ size q2 = size q /\
    top q1 = Some t1 /\ top q2 = Some t2 /\
    (t1 <? t2) = false /\ (t2 <? t1) = false.
Proof.
  apply (X8_popPush_is_pop_then_push nat Nat.ltb sorting_pushHeap
           sorting_popHeap sorting_bubbleDown
           (mkPriorityQueue [9; 4; 7; 1; 3]) 5).
  - apply ltb_strict_weak_order.
  - apply sorting_primitives.
  - reflexivity.
  - reflexivity.
Defined.
